(** * cxstructs::vec — the growable buffer of CXStructures

    A shallow embedding of [src/datastructures/vec.h] and the properties of
    its capacity management.

    - The heap block behind [arr_] is a [list T]; its length is the number
      of slots that [new T[n]] handed out, which the class never records
      and which may differ from the capacity field [len_].
    - The counters [size_], [len_], [minlen_] are [uint_32_cx]
      ([uint_fast32_t], 64 bits wide on the LP64 targets the header is
      built for); they are integers in [Z] and every place where the code
      can wrap or convert is written with [wrap_u], [wrap_s], [to_int].
    - A member function is a function from the object to an [outcome]: it
      returns, throws [std::out_of_range], fails to allocate, or runs into
      undefined behaviour (a read or write outside the block, a read from a
      block that has been released, an inverted iterator range, a signed
      overflow).
    - [add] and [remove] take their element as [const T&].  The reference
      is a [cref]: an object of the caller, or a slot of the buffer's own
      block as handed out by [operator[]] and [at]; such a slot is gone once
      [grow] or [shrink] has released the block. *)

From stdpp Require Import base numbers list option gmap strings.

#[local] Open Scope Z_scope.

(** * The embedding *)

(** ** Machine integers *)

(** Width of [uint_fast32_t] / [int_fast32_t]. *)
Definition fast_bits : Z := 64.

(** Conversion to [uint_32_cx]: reduction modulo [2^64]. *)
Definition wrap_u (z : Z) : Z := z mod 2 ^ fast_bits.

(** Conversion to [int_32_cx]: the two's complement reading. *)
Definition wrap_s (z : Z) : Z :=
  let u := wrap_u z in
  if u <? 2 ^ (fast_bits - 1) then u else u - 2 ^ fast_bits.

Definition INT_MAX : Z := 2 ^ 31 - 1.

(** Conversion to [int] (32 bits), as in [int i = size_ - 1]. *)
Definition to_int (z : Z) : Z :=
  let u := z mod 2 ^ 32 in
  if u <? 2 ^ 31 then u else u - 2 ^ 32.

(** [x *= 1.5] on an unsigned counter: the product is formed in double
    precision and truncated.  Below [2^51] both conversions are exact and
    the result is [floor (3 * x / 2)]; [new_array] refuses larger blocks, so
    no object ever carries a larger counter into this function. *)
Definition scale_1_5 (x : Z) : Z := 3 * x / 2.

(** The expression [x / 6 < 64 ? 0 : x / 6] that every constructor, [grow]
    and [shrink] use for [minlen_]. *)
Definition lower_bound (x : Z) : Z := if x / 6 <? 64 then 0 else x / 6.

(** The largest block [new T[n]] can return: the user address space of the
    LP64 targets holds [2^47] bytes.  A larger request throws
    [std::bad_alloc]. *)
Definition max_slots : Z := 2 ^ 47.

(** ** Outcomes *)

Inductive outcome (S A : Type) : Type :=
| Done (a : A) (s : S)   (* normal return, with the object afterwards *)
| OutOfRange (s : S)     (* std::out_of_range, with the object at the throw *)
| BadAlloc               (* operator new[] failed *)
| Undefined              (* undefined behaviour *)
| NoFuel.                (* a loop was cut off by its iteration budget *)

Arguments Done {S A} a s.
Arguments OutOfRange {S A} s.
Arguments BadAlloc {S A}.
Arguments Undefined {S A}.
Arguments NoFuel {S A}.

Definition bind {S A B : Type} (m : S → outcome S A) (k : A → S → outcome S B)
    : S → outcome S B :=
  λ s, match m s with
       | Done a s' => k a s'
       | OutOfRange s' => OutOfRange s'
       | BadAlloc => BadAlloc
       | Undefined => Undefined
       | NoFuel => NoFuel
       end.

Definition ret {S A : Type} (a : A) : S → outcome S A := λ s, Done a s.

(** A member function called on the object a constructor returned. *)
Definition call {S A B : Type} (c : outcome S A) (m : S → outcome S B)
    : outcome S B :=
  match c with
  | Done _ s => m s
  | OutOfRange s => OutOfRange s
  | BadAlloc => BadAlloc
  | Undefined => Undefined
  | NoFuel => NoFuel
  end.

(** What a call returned, when it returned. *)
Definition value_of {S A : Type} (c : outcome S A) : option A :=
  match c with Done a _ => Some a | _ => None end.

(** The object a call left behind, when it returned. *)
Definition object_of {S A : Type} (c : outcome S A) : option S :=
  match c with Done _ s => Some s | _ => None end.

Declare Scope vec_scope.
Delimit Scope vec_scope with vec.
Notation "x <- m ;; k" := (bind m (λ x, k))
  (at level 100, m at next level, right associativity) : vec_scope.
Notation "m ;;; k" := (bind m (λ _, k))
  (at level 100, right associativity) : vec_scope.
Notation "c ⊳ m" := (call c m) (at level 60, right associativity) : vec_scope.

(** ** Iterator ranges *)

Section ranges.
Context {T : Type}.

(** [std::move (src + first, src + last, dst + d)] and [std::copy] with
    the same arguments: the slots [[d, d + (last - first))] of [dst]
    receive [src[first .. last)].  The range must not be inverted and
    both ranges must lie inside their blocks.  When [src] and [dst] are
    the same block and [d <= first] the forward element-wise copy reads
    every source slot before it is overwritten, so the result is the same.
    Moved-from slots keep their value (trivially copyable [T]). *)
Definition std_move (src : list T) (first last : Z) (dst : list T) (d : Z)
    : option (list T) :=
  if bool_decide (0 ≤ first ∧ first ≤ last ∧ last ≤ Z.of_nat (length src)
                  ∧ 0 ≤ d ∧ d + (last - first) ≤ Z.of_nat (length dst))
  then Some (take (Z.to_nat d) dst
             ++ take (Z.to_nat (last - first)) (drop (Z.to_nat first) src)
             ++ drop (Z.to_nat (d + (last - first))) dst)
  else None.

(** [arr[i]] as an rvalue. *)
Definition read (arr : list T) (i : Z) : option T :=
  if bool_decide (0 ≤ i) then arr !! Z.to_nat i else None.

(** [arr[i] = x]. *)
Definition write (arr : list T) (i : Z) (x : T) : option (list T) :=
  if bool_decide (0 ≤ i ∧ i < Z.of_nat (length arr)) then Some (<[Z.to_nat i := x]> arr)
  else None.

(** A [const T&] argument of a member function: a reference to an object
    outside the buffer's block (a local variable, a temporary), or the
    reference to slot [i] of the block the call starts on, as [operator[]]
    and [at] return it. *)
Inductive cref : Type :=
| Outside (x : T)
| Slot (i : Z).

(** Reading through the reference, with [arr] the block the call started
    on and [freed] telling whether the call has run [delete[]] on it since:
    a reference into a deleted block dangles, and so does one past the
    block. *)
Definition deref (e : cref) (freed : bool) (arr : list T) : option T :=
  match e with
  | Outside x => Some x
  | Slot i => if freed then None else read arr i
  end.
End ranges.

Arguments cref T : clear implicits.

(** ** The class *)

Section vec.
Context {T : Type} `{EqDecision T}.

(** What a slot of a fresh [new T[n]] holds: the default-constructed
    [T], or for a scalar [T] whatever the allocator left there. *)
Variable dflt : T.

Record vec : Type := Vec {
  arr_ : list T;     (* T* arr_: the block it points to *)
  size_ : Z;         (* number of live elements *)
  len_ : Z;          (* recorded capacity *)
  minlen_ : Z        (* shrink threshold *)
}.

Definition M (A : Type) : Type := vec → outcome vec A.

(** [new T[n]] *)
Definition new_array (n : Z) : option (list T) :=
  if n <=? max_slots then Some (replicate (Z.to_nat n) dflt) else None.

(** The live elements, slots [[0, size_)]. *)
Definition live (v : vec) : list T := take (Z.to_nat (size_ v)) (arr_ v).

(** *** Resizing *)

Definition grow : M unit := λ v,
  let len' := scale_1_5 (len_ v) in
  match new_array len' with
  | None => BadAlloc
  | Some n_arr =>
    match std_move (arr_ v) 0 (size_ v) n_arr 0 with
    | None => Undefined
    | Some n_arr =>
      Done tt {| arr_ := n_arr; size_ := size_ v; len_ := len';
                 minlen_ := lower_bound (size_ v) |}
    end
  end.

Definition shrink : M unit := λ v,
  let len' := len_ v / 2 in
  match new_array len' with
  | None => BadAlloc
  | Some n_arr =>
    match std_move (arr_ v) 0 (size_ v) n_arr 0 with
    | None => Undefined
    | Some n_arr =>
      Done tt {| arr_ := n_arr; size_ := size_ v; len_ := len';
                 minlen_ := lower_bound (size_ v) |}
    end
  end.

(** *** Constructors *)

(** [explicit vec(uint_32_cx n_elem = 64)] *)
Definition vec_new (n_elem : Z) : outcome vec unit :=
  match new_array n_elem with
  | None => BadAlloc
  | Some a =>
    Done tt {| arr_ := a; size_ := 0; len_ := n_elem;
               minlen_ := lower_bound n_elem |}
  end.

(** [vec(uint_32_cx n_elem, const T val)] *)
Definition vec_fill (n_elem : Z) (val : T) : outcome vec unit :=
  match new_array n_elem with
  | None => BadAlloc
  | Some a =>
    Done tt {| arr_ := replicate (length a) val; size_ := n_elem;
               len_ := n_elem; minlen_ := lower_bound n_elem |}
  end.

(** [vec(uint_32_cx n_elem, fill_form form)] *)
Definition vec_form (n_elem : Z) (form : Z → T) : outcome vec unit :=
  match new_array n_elem with
  | None => BadAlloc
  | Some a =>
    Done tt {| arr_ := (λ i : nat, form (Z.of_nat i)) <$> seq 0 (length a);
               size_ := n_elem; len_ := n_elem;
               minlen_ := lower_bound n_elem |}
  end.

(** [explicit vec(const std::vector<T>& vector)] *)
Definition vec_of_vector (vector : list T) : outcome vec unit :=
  let n := Z.of_nat (length vector) in
  match new_array (scale_1_5 n) with
  | None => BadAlloc
  | Some a =>
    match std_move vector 0 n a 0 with
    | None => Undefined
    | Some a =>
      Done tt {| arr_ := a; size_ := n; len_ := scale_1_5 n;
                 minlen_ := lower_bound n |}
    end
  end.

(** [vec(std::initializer_list<T> init_list)] *)
Definition vec_of_init_list (init_list : list T) : outcome vec unit :=
  let n := Z.of_nat (length init_list) in
  match new_array n with
  | None => BadAlloc
  | Some a =>
    match std_move init_list 0 n a 0 with
    | None => Undefined
    | Some a =>
      Done tt {| arr_ := a; size_ := n; len_ := wrap_u (n * 2);
                 minlen_ := 0 |}
    end
  end.

(** [vec(const vec<T>& o)] *)
Definition vec_copy (o : vec) : outcome vec unit :=
  match new_array (len_ o) with
  | None => BadAlloc
  | Some a =>
    match std_move (arr_ o) 0 (size_ o) a 0 with
    | None => Undefined
    | Some a =>
      Done tt {| arr_ := a; size_ := size_ o; len_ := len_ o;
                 minlen_ := minlen_ o |}
    end
  end.

(** *** Element access *)

(** [T& at(const int_32_cx& index)] *)
Definition at_ (index : Z) : M T := λ v,
  if index <? 0 then
    let access := wrap_s (size_ v + index) in
    if access >=? 0 then
      match read (arr_ v) access with
      | Some x => Done x v
      | None => Undefined
      end
    else OutOfRange v
  else if wrap_u index <? size_ v then
    match read (arr_ v) index with
    | Some x => Done x v
    | None => Undefined
    end
  else OutOfRange v.

(** [T& operator[](const uint_32_cx& index) const] *)
Definition subscript (index : Z) : M T := λ v,
  match read (arr_ v) index with
  | Some x => Done x v
  | None => Undefined
  end.

(** [uint_32_cx size() const] *)
Definition size : M Z := λ v, Done (size_ v) v.

(** *** Modifiers *)

(** [arr_[size_++] = e] *)
Definition store_back (e : T) : M unit := λ v,
  match write (arr_ v) (size_ v) e with
  | None => Undefined
  | Some a =>
    Done tt {| arr_ := a; size_ := wrap_u (size_ v + 1); len_ := len_ v;
               minlen_ := minlen_ v |}
  end.

(** [void add(const T& e)]: [e] is read for the store, after [grow] has
    deleted the block the call started on. *)
Definition add (e : cref T) : M unit := λ v,
  let regrown := size_ v =? len_ v in
  ((if regrown then grow else ret tt)
   ;;; (λ v', match deref e regrown (arr_ v) with
              | Some x => store_back x v'
              | None => Undefined
              end))%vec v.

(** [for (...) list.add(e);] over the values [es] in turn, each held in a
    variable of the loop. *)
Fixpoint add_each (es : list T) : M unit :=
  match es with
  | [] => ret tt
  | e :: es' => (add (Outside e) ;;; add_each es')%vec
  end.

(** [void clear()] *)
Definition clear : M unit := λ v,
  match new_array 32 with
  | None => BadAlloc
  | Some a => Done tt {| arr_ := a; size_ := 0; len_ := 32; minlen_ := 0 |}
  end.

(** The loop [for (uint_32_cx i = 0; i < len_; i++) if (arr_[i] == e)]
    of [remove]: [l] is the block from slot [i] on.  [None] is a read
    past the end of the block, [Some None] the end of the loop without a
    match, [Some (Some i)] the first matching slot. *)
Fixpoint scan_to (e : T) (bound : Z) (l : list T) (i : Z)
    : option (option Z) :=
  if i <? bound then
    match l with
    | [] => None
    | x :: l' =>
      if decide (x = e) then Some (Some i) else scan_to e bound l' (i + 1)
    end
  else Some None.

(** The body of [remove] after the shrink test. *)
Definition remove_scan (e : T) : M unit := λ v,
  match scan_to e (len_ v) (arr_ v) 0 with
  | None => Undefined
  | Some None => Done tt v
  | Some (Some i) =>
    match std_move (arr_ v) (i + 1) (size_ v) (arr_ v) i with
    | None => Undefined
    | Some a =>
      Done tt {| arr_ := a; size_ := wrap_u (size_ v - 1); len_ := len_ v;
                 minlen_ := minlen_ v |}
    end
  end.

(** [void remove(const T& e)]: [e] is read by the comparisons of the loop,
    after [shrink] has deleted the block the call started on; with a
    capacity of 0 the loop has no round and [e] is not read. *)
Definition remove (e : cref T) : M unit := λ v,
  let shrunk := size_ v <? minlen_ v in
  ((if shrunk then shrink else ret tt)
   ;;; (λ v', if 0 <? len_ v' then
                match deref e shrunk (arr_ v) with
                | Some x => remove_scan x v'
                | None => Undefined
                end
              else Done tt v'))%vec v.

(** The body of [removeAt] after the shrink test:
    [std::move(arr_ + index + 1, arr_ + size_--, arr_ + index)]. *)
Definition removeAt_shift (index : Z) : M unit := λ v,
  match std_move (arr_ v) (index + 1) (size_ v) (arr_ v) index with
  | None => Undefined
  | Some a =>
    Done tt {| arr_ := a; size_ := wrap_u (size_ v - 1); len_ := len_ v;
               minlen_ := minlen_ v |}
  end.

(** [void removeAt(const uint_32_cx& index)] *)
Definition removeAt (index : Z) : M unit := λ v,
  ((if size_ v <? minlen_ v then shrink else ret tt)
   ;;; removeAt_shift index)%vec v.

(** *** Search *)

(** [for (int i = 0; i < size_; i++) if (arr_[i] == val) return true;]
    with [l] the block from slot [i] on.  [None] is undefined behaviour:
    a read past the block, or [i++] at [INT_MAX]. *)
Fixpoint scan_front (val : T) (size : Z) (l : list T) (i : Z)
    : option bool :=
  if wrap_u i <? size then
    match l with
    | [] => None
    | x :: l' =>
      if decide (x = val) then Some true
      else if INT_MAX <? i + 1 then None
      else scan_front val size l' (i + 1)
    end
  else Some false.

(** [for (int i = size_ - 1; i > -1; i++) if (arr_[i] == val) return true;]
    with [l] the block from slot [i] on.  The index moves up, so for a
    start [i >= 0] the test [i > -1] never fails: the loop ends with a
    match or with undefined behaviour. *)
Fixpoint scan_back (val : T) (l : list T) (i : Z) : option bool :=
  if i >? -1 then
    match l with
    | [] => None
    | x :: l' =>
      if decide (x = val) then Some true
      else if INT_MAX <? i + 1 then None
      else scan_back val l' (i + 1)
    end
  else Some false.

(** [bool contains(const T& val, bool startFront = true)] *)
Definition contains (val : T) (startFront : bool) : M bool := λ v,
  if startFront then
    match scan_front val (size_ v) (arr_ v) 0 with
    | Some b => Done b v
    | None => Undefined
    end
  else
    let i := to_int (wrap_u (size_ v - 1)) in
    if i >? -1 then
      match scan_back val (drop (Z.to_nat i) (arr_ v)) i with
      | Some b => Done b v
      | None => Undefined
      end
    else Done false v.

(** *** Bulk append *)

(** [while (len_ - size_ < need) grow();] *)
Fixpoint grow_while (fuel : nat) (need : Z) : M unit := λ v,
  if wrap_u (len_ v - size_ v) <? need then
    match fuel with
    | O => NoFuel
    | S fuel' => (grow ;;; grow_while fuel' need)%vec v
    end
  else Done tt v.

(** [std::copy(src + first, src + last, arr_ + size_); size_ += last - first;] *)
Definition copy_back (src : list T) (first last : Z) : M unit := λ v,
  match std_move src first last (arr_ v) (size_ v) with
  | None => Undefined
  | Some a =>
    Done tt {| arr_ := a; size_ := wrap_u (size_ v + wrap_u (last - first));
               len_ := len_ v; minlen_ := minlen_ v |}
  end.

(** [void append(vec<T>& vec)], with [o] an object other than [*this]. *)
Definition append (fuel : nat) (o : vec) : M unit :=
  (grow_while fuel (size_ o) ;;; copy_back (arr_ o) 0 (size_ o))%vec.

(** [void append(vec<T>& list, uint_32_cx endIndex, uint_32_cx startIndex = 0)] *)
Definition append_range (fuel : nat) (list : vec) (endIndex startIndex : Z)
    : M unit := λ v,
  if (startIndex >=? endIndex) || (endIndex >? size_ list) then OutOfRange v
  else (grow_while fuel (wrap_u (endIndex - startIndex))
        ;;; copy_back (arr_ list) startIndex endIndex)%vec v.

(** *** Assignment, on a store of objects *)

(** [vec& operator=(const vec<T>& o)]: [this] and [o] are addresses. *)
Definition copy_assign (this o : nat) (σ : gmap nat vec)
    : outcome (gmap nat vec) unit :=
  if decide (this = o) then Done tt σ
  else
    match σ !! this, σ !! o with
    | Some _, Some src =>
      match new_array (size_ src) with
      | None => BadAlloc
      | Some a =>
        match std_move (arr_ src) 0 (size_ src) a 0 with
        | None => Undefined
        | Some a =>
          Done tt (<[this := {| arr_ := a; size_ := size_ src;
                                len_ := len_ src;
                                minlen_ := minlen_ src |}]> σ)
        end
      end
    | _, _ => Undefined
    end.

(** [vec& operator=(vec&& o) noexcept]: the source keeps no block. *)
Definition move_assign (this o : nat) (σ : gmap nat vec)
    : outcome (gmap nat vec) unit :=
  if decide (this = o) then Done tt σ
  else
    match σ !! this, σ !! o with
    | Some _, Some src =>
      Done tt (<[o := {| arr_ := []; size_ := 0; len_ := 0; minlen_ := 0 |}]>
                 (<[this := src]> σ))
    | _, _ => Undefined
    end.

(** ** The representation invariant *)

(** The block has exactly [len_] slots, the live prefix fits in it, and
    the threshold is at most half the capacity. *)
Record wf (v : vec) : Prop := Wf {
  wf_size : 0 ≤ size_ v ≤ len_ v;
  wf_block : Z.of_nat (length (arr_ v)) = len_ v;
  wf_max : len_ v ≤ max_slots;
  wf_minlen : 0 ≤ minlen_ v ≤ len_ v / 2
}.

End vec.

Arguments vec T : clear implicits.
Arguments Vec {T} arr_ size_ len_ minlen_.

(** ** Iteration, printing and the loops of callers *)

Section callers.
Context {T : Type} `{EqDecision T}.
Variable dflt : T.

(** [for (...) list.remove(e);] over the values [es] in turn, each held in
    a variable of the loop. *)
Fixpoint remove_each (es : list T) : M unit :=
  match es with
  | [] => ret tt
  | e :: es' => (remove dflt (Outside e) ;;; remove_each es')%vec
  end.

(** [Iterator begin()] and [Iterator end()], as slot offsets from [arr_]. *)
Definition begin_ (v : vec T) : Z := 0.
Definition end_ (v : vec T) : Z := size_ v.

(** [for (auto& x : list)]: from [ptr], while [ptr != end], visit [*ptr] and
    step with [++ptr]; [l] is the block from [ptr] on.  [None] is a
    dereference past the block. *)
Fixpoint range_for (l : list T) (ptr last : Z) : option (list T) :=
  if ptr =? last then Some []
  else
    match l with
    | [] => None
    | x :: l' => (x ::.) <$> range_for l' (ptr + 1) last
    end.

(** The loop of [operator<<]:
    [for (int i = 1; i < list.size_; i++) os << "," << list.arr_[i];]
    with [l] the block from slot [i] on and [os] what was written so far. *)
Fixpoint stream_rest (show : T → string) (size : Z) (l : list T) (i : Z)
    (os : string) : option string :=
  if wrap_u i <? size then
    match l with
    | [] => None
    | x :: l' =>
      if INT_MAX <? i + 1 then None
      else stream_rest show size l' (i + 1) (os +:+ "," +:+ show x)
    end
  else Some os.

(** What that loop writes for the elements [l]: a comma and the element,
    for each in turn. *)
Fixpoint comma_tail (show : T → string) (l : list T) : string :=
  match l with
  | [] => ""
  | x :: l' => "," +:+ show x +:+ comma_tail show l'
  end.

(** [std::ostream& operator<<(std::ostream& os, const vec<T>& list)], with
    [show] what [os << x] writes for an element. *)
Definition stream_out (show : T → string) (os : string) (list : vec T)
    : option string :=
  if size_ list =? 0 then Some (os +:+ "[]")
  else
    match read (arr_ list) 0 with
    | None => None
    | Some x0 =>
      match stream_rest show (size_ list) (drop 1 (arr_ list)) 1
              (os +:+ "[" +:+ show x0) with
      | None => None
      | Some os' => Some (os' +:+ "]")
      end
    end.

End callers.

(** ** Concrete buffers *)

(** [vec<int> list; list.add(5); list.add(10); list.add(15);] with [g] in
    the slots the allocator hands out. *)
Definition list_5_10_15 (g : Z) : outcome (vec Z) unit :=
  (vec_new g 64 ⊳ (add g (Outside 5) ;;; add g (Outside 10) ;;; add g (Outside 15)))%vec.

(** [vec<int> list(600);] : capacity 600, no element, threshold 100. *)
Definition empty_600 : vec Z := Vec (replicate 600 0) 0 600 100.

(** [vec<int> list; list.add(5);] *)
Definition only_5 (g : Z) : outcome (vec Z) unit :=
  (vec_new g 64 ⊳ add g (Outside 5))%vec.

(** [vec<int> list; list.add(1); list.add(2);] *)
Definition list_1_2 (g : Z) : outcome (vec Z) unit :=
  (vec_new g 64 ⊳ (add g (Outside 1) ;;; add g (Outside 2)))%vec.

(** [vec<int> list5(10); for (i = 0; i < 10; i++) list5.add(i);] *)
Definition list5 (g : Z) : outcome (vec Z) unit :=
  (vec_new g 10 ⊳ add_each g [0; 1; 2; 3; 4; 5; 6; 7; 8; 9])%vec.

(** [vec<int> list(600); list.add(5); list.add(10); list.add(15);] :
    three elements below the threshold 100 of capacity 600. *)
Definition three_of_600 : vec Z :=
  Vec ([5; 10; 15] ++ replicate 597 0) 3 600 100.

(** A buffer [[5, 10, 15]] on a block of four slots. *)
Definition three_of_four : vec Z := Vec [5; 10; 15; 0] 3 4 0.

(** What [os << x] writes for the three values of [three_of_four]. *)
Definition show_small (x : Z) : string :=
  if x =? 5 then "5" else if x =? 10 then "10" else "15".

(** [vec<int> v(2, 5);] : a full buffer of capacity 2. *)
Definition full_2 : vec Z := Vec [5; 5] 2 2 0.

(** Two objects: [a] at address 1 is [vec<int> a(600)], [b] at address 0
    was cleared. *)
Definition two_objects : gmap nat (vec Z) :=
  <[1%nat := empty_600]> {[ 0%nat := Vec (replicate 32 0) 0 32 0 ]}.

(** * Properties *)

(** ** Arithmetic of the counters *)

(** Lengths of concatenations, pushed down to the pieces. *)
Ltac len_norm :=
  repeat first [rewrite length_app | progress cbn [length]].

(** Linear arithmetic with the quotients and remainders spelled out. *)
Ltac dlia := Z.div_mod_to_equations; lia.

(** The powers of two that occur in this file, as numerals. *)
Ltac pow_consts :=
  unfold fast_bits, max_slots, INT_MAX in *;
  change (64 - 1) with 63 in *;
  change (2 ^ 64) with 18446744073709551616 in *;
  change (2 ^ 63) with 9223372036854775808 in *;
  change (2 ^ 47) with 140737488355328 in *;
  change (2 ^ 32) with 4294967296 in *;
  change (2 ^ 31) with 2147483648 in *.

Lemma wrap_u_small (z : Z) : 0 ≤ z < 2 ^ 64 → wrap_u z = z.
Proof. intros Hz. unfold wrap_u. pow_consts. apply Z.mod_small. lia. Qed.

Lemma wrap_s_small (z : Z) : - 2 ^ 63 ≤ z < 2 ^ 63 → wrap_s z = z.
Proof.
  intros Hz. unfold wrap_s, wrap_u. cbv zeta. pow_consts.
  destruct (Z.ltb_spec (z mod 18446744073709551616) 9223372036854775808); dlia.
Qed.

Lemma to_int_small (z : Z) : - 2 ^ 31 ≤ z < 2 ^ 31 → to_int z = z.
Proof.
  intros Hz. unfold to_int. cbv zeta. pow_consts.
  destruct (Z.ltb_spec (z mod 4294967296) 2147483648); dlia.
Qed.

Lemma lower_bound_le (x : Z) : 0 ≤ x → 0 ≤ lower_bound x ≤ x / 6.
Proof.
  intros Hx. unfold lower_bound.
  destruct (Z.ltb_spec (x / 6) 64); dlia.
Qed.

Lemma scale_1_5_grows (x : Z) : 2 ≤ x → x + 1 ≤ scale_1_5 x.
Proof. unfold scale_1_5. dlia. Qed.

Lemma scale_1_5_stuck (x : Z) : 0 ≤ x ≤ 1 → scale_1_5 x = x.
Proof. unfold scale_1_5. dlia. Qed.

(** ** Blocks and ranges *)

Section range_facts.
Context {T : Type}.
Implicit Types (src dst arr : list T) (x : T).

Lemma std_move_Some src first last dst d :
  0 ≤ first → first ≤ last → last ≤ Z.of_nat (length src) → 0 ≤ d →
  d + (last - first) ≤ Z.of_nat (length dst) →
  std_move src first last dst d =
    Some (take (Z.to_nat d) dst
          ++ take (Z.to_nat (last - first)) (drop (Z.to_nat first) src)
          ++ drop (Z.to_nat (d + (last - first))) dst).
Proof.
  intros. unfold std_move. rewrite bool_decide_eq_true_2; [done | lia].
Qed.

Lemma std_move_inverted src first last dst d :
  last < first → std_move src first last dst d = None.
Proof.
  intros. unfold std_move. rewrite bool_decide_eq_false_2; [done | lia].
Qed.

Lemma std_move_length src first last dst d r :
  std_move src first last dst d = Some r → length r = length dst.
Proof.
  unfold std_move. case_bool_decide as Hc; [| done].
  intros [= <-]. rewrite !length_app, !length_take, !length_drop. lia.
Qed.

(** Relocation into a fresh block: the first [n] slots of the source,
    then what the new block held. *)
Lemma std_move_prefix src n dst :
  0 ≤ n → n ≤ Z.of_nat (length src) → n ≤ Z.of_nat (length dst) →
  std_move src 0 n dst 0 =
    Some (take (Z.to_nat n) src ++ drop (Z.to_nat n) dst).
Proof.
  intros. rewrite std_move_Some by lia.
  by rewrite Z.sub_0_r, Z.add_0_l.
Qed.

Lemma read_Some arr i x :
  0 ≤ i → arr !! Z.to_nat i = Some x → read arr i = Some x.
Proof. intros. unfold read. by rewrite bool_decide_eq_true_2. Qed.

Lemma read_in_block arr i :
  0 ≤ i < Z.of_nat (length arr) → ∃ x, read arr i = Some x ∧ arr !! Z.to_nat i = Some x.
Proof.
  intros Hi. destruct (lookup_lt_is_Some_2 arr (Z.to_nat i)) as [x Hx]; [lia |].
  exists x. split; [| done]. apply read_Some; [lia | done].
Qed.

Lemma write_Some arr i x :
  0 ≤ i < Z.of_nat (length arr) → write arr i x = Some (<[Z.to_nat i := x]> arr).
Proof. intros. unfold write. by rewrite bool_decide_eq_true_2. Qed.

Lemma write_outside arr i x :
  Z.of_nat (length arr) ≤ i → write arr i x = None.
Proof. intros. unfold write. rewrite bool_decide_eq_false_2; [done | lia]. Qed.
End range_facts.

Section vec_facts.
Context {T : Type} `{EqDecision T} (dflt : T).
Implicit Types (v o : vec T) (e val : T).

Lemma new_array_Some n :
  n ≤ max_slots → new_array dflt n = Some (replicate (Z.to_nat n) dflt).
Proof.
  intros. unfold new_array.
  destruct (Z.leb_spec n max_slots); [done | lia].
Qed.

Lemma live_lookup v i :
  0 ≤ i < size_ v → live v !! Z.to_nat i = arr_ v !! Z.to_nat i.
Proof. intros. unfold live. apply lookup_take_lt. lia. Qed.

(** With an argument outside the block, [add] is the growth test followed
    by the store of the value. *)
Lemma add_Outside v e :
  add dflt (Outside e) v
  = ((if size_ v =? len_ v then grow dflt else ret tt) ;;; store_back e)%vec v.
Proof. reflexivity. Qed.

(** An argument that can still be read when [add] stores it stands for its
    value. *)
Lemma add_deref v (r : cref T) e :
  deref r (size_ v =? len_ v) (arr_ v) = Some e →
  add dflt r v = add dflt (Outside e) v.
Proof.
  intros Hr. unfold add. cbv zeta. unfold bind. by rewrite Hr.
Qed.

(** With an argument outside the block, [remove] is the shrink test
    followed by the loop on the value. *)
Lemma add_Undefined_cref v :
  (∀ e, add dflt (Outside e) v = Undefined) →
  ∀ r : cref T, add dflt r v = Undefined.
Proof.
  intros Hout r.
  destruct (deref r (size_ v =? len_ v) (arr_ v)) as [x |] eqn:Hr.
  - rewrite (add_deref v r x Hr). apply Hout.
  - specialize (Hout dflt). revert Hout.
    unfold add. cbv zeta. unfold bind. rewrite Hr. simpl.
    match goal with
    | |- context [match ?m with Done _ _ => _ | _ => _ end] => by destruct m
    end.
Qed.

Lemma remove_Outside v e :
  remove dflt (Outside e) v
  = ((if size_ v <? minlen_ v then shrink dflt else ret tt)
     ;;; remove_scan e)%vec v.
Proof.
  unfold remove. cbv zeta. unfold bind.
  match goal with
  | |- context [match ?m with Done _ _ => _ | _ => _ end] =>
    destruct m as [[] v' | | | |]; try done
  end.
  simpl. destruct (Z.ltb_spec 0 (len_ v')) as [Hpos | Hzero]; [done |].
  unfold remove_scan.
  destruct (arr_ v'); simpl; by destruct (Z.ltb_spec 0 (len_ v')); [lia |].
Qed.

(** An argument that can still be read when the loop of [remove] compares
    against it stands for its value. *)
Lemma remove_deref v (r : cref T) e :
  deref r (size_ v <? minlen_ v) (arr_ v) = Some e →
  remove dflt r v = remove dflt (Outside e) v.
Proof.
  intros Hr. unfold remove. cbv zeta. unfold bind. by rewrite Hr.
Qed.

Lemma live_length v :
  0 ≤ size_ v ≤ Z.of_nat (length (arr_ v)) → Z.of_nat (length (live v)) = size_ v.
Proof. intros. unfold live. rewrite length_take. lia. Qed.

End vec_facts.

(** ** Resizing and the invariant *)

Section resize_facts.
Context {T : Type} `{EqDecision T} (dflt : T).
Implicit Types (v o : vec T) (e val : T).

(** Relocation into a larger or smaller block keeps the live prefix. *)
Lemma relocate_Some v n :
  0 ≤ size_ v → size_ v ≤ Z.of_nat (length (arr_ v)) → size_ v ≤ n →
  n ≤ max_slots →
  ∃ a, new_array dflt n = Some (replicate (Z.to_nat n) dflt)
       ∧ std_move (arr_ v) 0 (size_ v) (replicate (Z.to_nat n) dflt) 0 = Some a
       ∧ Z.of_nat (length a) = n
       ∧ take (Z.to_nat (size_ v)) a = live v.
Proof.
  intros H0 Hblk Hn Hmax.
  eexists. split; [by apply new_array_Some |].
  split; [apply std_move_prefix; rewrite ?length_replicate; lia |].
  split.
  - rewrite length_app, length_take, length_drop, length_replicate. lia.
  - unfold live. rewrite take_app_length'; [done |].
    rewrite length_take. lia.
Qed.

Lemma grow_Done v :
  0 ≤ size_ v → size_ v ≤ Z.of_nat (length (arr_ v)) →
  size_ v ≤ scale_1_5 (len_ v) → scale_1_5 (len_ v) ≤ max_slots →
  ∃ a, grow dflt v = Done tt (Vec a (size_ v) (scale_1_5 (len_ v))
                                  (lower_bound (size_ v)))
       ∧ Z.of_nat (length a) = scale_1_5 (len_ v)
       ∧ take (Z.to_nat (size_ v)) a = live v.
Proof.
  intros H0 Hblk Hn Hmax.
  destruct (relocate_Some v _ H0 Hblk Hn Hmax) as (a & Hnew & Hmv & Hlen & Hlive).
  exists a. unfold grow. cbv zeta. by rewrite Hnew, Hmv.
Qed.

Lemma shrink_Done v :
  0 ≤ size_ v → size_ v ≤ Z.of_nat (length (arr_ v)) →
  size_ v ≤ len_ v / 2 → len_ v / 2 ≤ max_slots →
  ∃ a, shrink dflt v = Done tt (Vec a (size_ v) (len_ v / 2)
                                    (lower_bound (size_ v)))
       ∧ Z.of_nat (length a) = len_ v / 2
       ∧ take (Z.to_nat (size_ v)) a = live v.
Proof.
  intros H0 Hblk Hn Hmax.
  destruct (relocate_Some v _ H0 Hblk Hn Hmax) as (a & Hnew & Hmv & Hlen & Hlive).
  exists a. unfold shrink. cbv zeta. by rewrite Hnew, Hmv.
Qed.

Lemma wf_grow v v' :
  wf v → grow dflt v = Done tt v' → wf v'.
Proof.
  intros [Hs Hb Hm Hl]. unfold grow. cbv zeta. unfold new_array.
  destruct (Z.leb_spec (scale_1_5 (len_ v)) max_slots) as [Hle |]; [| done].
  destruct (std_move _ _ _ _ _) as [a |] eqn:Hmv; [| done].
  intros [= <-]. apply std_move_length in Hmv. rewrite length_replicate in Hmv.
  pose proof (lower_bound_le (size_ v)) as Hlb.
  unfold scale_1_5 in *. split; simpl; [dlia | dlia | done | dlia].
Qed.

Lemma wf_shrink v v' :
  wf v → size_ v < minlen_ v → shrink dflt v = Done tt v' → wf v'.
Proof.
  intros [Hs Hb Hm Hl] Hlt. unfold shrink. cbv zeta. unfold new_array.
  destruct (Z.leb_spec (len_ v / 2) max_slots) as [Hle |]; [| done].
  destruct (std_move _ _ _ _ _) as [a |] eqn:Hmv; [| done].
  intros [= <-]. apply std_move_length in Hmv. rewrite length_replicate in Hmv.
  pose proof (lower_bound_le (size_ v)) as Hlb.
  split; simpl; [dlia | dlia | dlia | dlia].
Qed.

End resize_facts.

Lemma empty_600_built : vec_new 0 600 = Done tt empty_600.
Proof. reflexivity. Qed.

Lemma wf_empty_600 : wf empty_600.
Proof. split; simpl; [lia | reflexivity | pow_consts; lia | dlia]. Defined.

(** ** Clear *)

(** C8. [clear] leaves capacity 32, length 0 and threshold 0 whatever the
    buffer was before, on a block of 32 slots; an [add] right after it
    returns with [size() == 1] and the element in slot 0. *)
Theorem clear_resets_to_baseline {T : Type} `{EqDecision T} (dflt : T) (v : vec T) :
  ∃ c, clear dflt v = Done tt c
       ∧ len_ c = 32 ∧ size_ c = 0 ∧ minlen_ c = 0
       ∧ Z.of_nat (length (arr_ c)) = 32
       ∧ ∀ e, ∃ c', (clear dflt ;;; add dflt (Outside e))%vec v = Done tt c'
                    ∧ size c' = Done 1 c'
                    ∧ subscript 0 c' = Done e c'
                    ∧ live c' = [e].
Proof.
  eexists. split; [reflexivity |]. repeat split.
  intros e. eexists. split; [reflexivity |]. repeat split.
Qed.

(** ** Checked access *)

(** C6. [at(i)] on a well-formed buffer, for [i] an [int_32_cx]: a
    non-negative [i] below the length yields the element in slot [i], at or
    above the length it throws; a negative [i] yields the element in slot
    [length + i] when that is not negative and throws otherwise.  On
    [[5,10,15]]: [at(-1) = 15], [at(-2) = 10], [at(-3) = 5], [at(-4)] throws. *)
Theorem at_checked_access {T : Type} (v : vec T) (i : Z) :
  wf v → - 2 ^ 63 ≤ i < 2 ^ 63 →
  (0 ≤ i < size_ v →
     ∃ x, live v !! Z.to_nat i = Some x ∧ at_ i v = Done x v)
  ∧ (size_ v ≤ i → at_ i v = OutOfRange v)
  ∧ (i < 0 → 0 ≤ size_ v + i →
     ∃ x, live v !! Z.to_nat (size_ v + i) = Some x ∧ at_ i v = Done x v)
  ∧ (size_ v + i < 0 → at_ i v = OutOfRange v)
  ∧ (∀ g, ∃ b, list_5_10_15 g = Done tt b ∧ live b = [5; 10; 15]
               ∧ at_ (-1) b = Done 15 b ∧ at_ (-2) b = Done 10 b
               ∧ at_ (-3) b = Done 5 b ∧ at_ (-4) b = OutOfRange b).
Proof.
  intros [Hs Hb Hm Hl] Hi.
  assert (Hmax : max_slots < 2 ^ 63) by (pow_consts; lia).
  split; [| split; [| split; [| split]]].
  - intros Hin.
    destruct (read_in_block (arr_ v) i) as (x & Hr & Hx); [lia |].
    exists x. split; [by rewrite live_lookup |].
    unfold at_. destruct (Z.ltb_spec i 0); [lia |].
    rewrite wrap_u_small by (pow_consts; lia).
    destruct (Z.ltb_spec i (size_ v)); [| lia]. by rewrite Hr.
  - intros Hout. unfold at_. destruct (Z.ltb_spec i 0); [lia |].
    rewrite wrap_u_small by (pow_consts; lia).
    destruct (Z.ltb_spec i (size_ v)); [lia | done].
  - intros Hneg Hin.
    destruct (read_in_block (arr_ v) (size_ v + i)) as (x & Hr & Hx); [lia |].
    exists x. split; [by rewrite live_lookup by lia |].
    unfold at_. destruct (Z.ltb_spec i 0); [| lia]. cbv zeta.
    rewrite wrap_s_small by lia.
    destruct (Z.geb_spec (size_ v + i) 0); [| lia]. by rewrite Hr.
  - intros Hout. unfold at_. destruct (Z.ltb_spec i 0); [| lia]. cbv zeta.
    rewrite wrap_s_small by lia.
    destruct (Z.geb_spec (size_ v + i) 0); [lia | done].
  - intros g. eexists. split; [reflexivity |]. repeat split.
Qed.

Lemma at_checked_access_witness :
  wf empty_600 ∧ - 2 ^ 63 ≤ 0 < 2 ^ 63 ∧ at_ 0 empty_600 = OutOfRange empty_600.
Proof.
  split; [exact wf_empty_600 |]. split; [pow_consts; lia |].
  destruct (at_checked_access empty_600 0 wf_empty_600) as (_ & Hthrow & _);
    [pow_consts; lia |].
  apply Hthrow. simpl. lia.
Defined.

(** ** Shrinking *)

(** C3. On a well-formed buffer whose length is below its threshold,
    [remove] and [removeAt] first run [shrink], which returns with half the
    capacity on a block of that many slots and with every live slot, hence
    the sequence of live elements, unchanged; the removal (for [remove], of
    an element held outside the block) then proceeds on that buffer. *)
Theorem shrink_before_removal {T : Type} `{EqDecision T} (dflt : T) (v : vec T) :
  wf v → size_ v < minlen_ v →
  ∃ v', shrink dflt v = Done tt v'
        ∧ len_ v' = len_ v / 2
        ∧ Z.of_nat (length (arr_ v')) = len_ v'
        ∧ size_ v' = size_ v
        ∧ (∀ i, 0 ≤ i < size_ v →
             arr_ v' !! Z.to_nat i = arr_ v !! Z.to_nat i)
        ∧ (∀ e, remove dflt (Outside e) v = remove_scan e v')
        ∧ (∀ index, removeAt dflt index v = removeAt_shift index v')
        ∧ live v' = live v.
Proof.
  intros Hwf Hlt. pose proof Hwf as [Hs Hb Hm Hl].
  destruct (shrink_Done dflt v) as (a & Hsh & Hlen & Hlive); [lia | lia | lia | dlia |].
  eexists. split; [exact Hsh |]. simpl.
  split; [done |]. split; [done |]. split; [done |]. split; [| split; [| split]].
  - intros i Hi. rewrite <- (live_lookup v) by done.
    rewrite <- Hlive. symmetry. apply lookup_take_lt. lia.
  - intros e. rewrite remove_Outside. unfold bind.
    destruct (Z.ltb_spec (size_ v) (minlen_ v)); [| lia]. by rewrite Hsh.
  - intros index. unfold removeAt, bind.
    destruct (Z.ltb_spec (size_ v) (minlen_ v)); [| lia]. by rewrite Hsh.
  - done.
Qed.

Lemma three_of_600_built :
  (vec_new 0 600 ⊳ (add 0 (Outside 5) ;;; add 0 (Outside 10)
                    ;;; add 0 (Outside 15)))%vec = Done tt three_of_600.
Proof. vm_compute. reflexivity. Qed.

Lemma wf_three_of_600 : wf three_of_600.
Proof. split; simpl; [lia | reflexivity | pow_consts; lia | dlia]. Defined.

Lemma shrink_before_removal_witness :
  wf three_of_600 ∧ size_ three_of_600 < minlen_ three_of_600
  ∧ ∃ v' v'', shrink 0 three_of_600 = Done tt v'
              ∧ len_ v' = 300 ∧ Z.of_nat (length (arr_ v')) = 300
              ∧ live v' = [5; 10; 15]
              ∧ remove 0 (Outside 10) three_of_600 = Done tt v''
              ∧ live v'' = [5; 15] ∧ len_ v'' = 300.
Proof.
  split; [exact wf_three_of_600 |]. split; [simpl; lia |].
  destruct (shrink_before_removal 0 three_of_600 wf_three_of_600)
    as (v' & Hsh & Hlen & Hblk & _ & _ & Hrm & _ & Hlive); [simpl; lia |].
  exists v'. rewrite (Hrm 10).
  assert (Hv' : Done tt v' = shrink 0 three_of_600) by (symmetry; exact Hsh).
  vm_compute in Hv'. injection Hv' as ->.
  eexists. split; [exact Hsh |]. split; [reflexivity |].
  split; [reflexivity |]. split; [reflexivity |].
  split; [vm_compute; reflexivity |]. split; reflexivity.
Defined.

(** ** Appending one element *)

Section add_facts.
Context {T : Type} `{EqDecision T} (dflt : T).
Implicit Types (v o : vec T) (e val : T).

Lemma store_back_Done v e :
  0 ≤ size_ v < Z.of_nat (length (arr_ v)) → size_ v + 1 < 2 ^ 64 →
  ∃ a, store_back e v = Done tt (Vec a (size_ v + 1) (len_ v) (minlen_ v))
       ∧ length a = length (arr_ v)
       ∧ take (Z.to_nat (size_ v + 1)) a = live v ++ [e].
Proof.
  intros Hs Hmax. exists (<[Z.to_nat (size_ v) := e]> (arr_ v)).
  split; [| split].
  - unfold store_back. rewrite write_Some by done.
    by rewrite wrap_u_small by lia.
  - apply length_insert.
  - replace (Z.to_nat (size_ v + 1)) with (S (Z.to_nat (size_ v))) by lia.
    rewrite (take_S_r _ _ e) by (apply list_lookup_insert_eq; lia).
    unfold live. by rewrite take_insert_ge by lia.
Qed.

Lemma store_back_outside v e :
  Z.of_nat (length (arr_ v)) ≤ size_ v → store_back e v = Undefined.
Proof. intros. unfold store_back. by rewrite write_outside. Qed.

(** [add] on a buffer with a free slot, or on a full one of capacity at
    least 2 that can still be reallocated. *)
Lemma add_Done v e :
  wf v →
  size_ v < len_ v ∨ (2 ≤ len_ v ∧ scale_1_5 (len_ v) ≤ max_slots) →
  ∃ v', add dflt (Outside e) v = Done tt v' ∧ wf v'
        ∧ live v' = live v ++ [e]
        ∧ size_ v' = size_ v + 1
        ∧ len_ v' = (if size_ v =? len_ v then scale_1_5 (len_ v) else len_ v)
        ∧ minlen_ v' = (if size_ v =? len_ v then lower_bound (len_ v)
                        else minlen_ v).
Proof.
  intros Hwf Hroom. pose proof Hwf as [Hs Hb Hm Hl].
  assert (Hbig : max_slots + 1 < 2 ^ 64) by (pow_consts; lia).
  rewrite add_Outside. unfold bind. destruct (Z.eqb_spec (size_ v) (len_ v)) as [Heq | Hne].
  - destruct Hroom as [? | [H2 Hfit]]; [lia |].
    pose proof (scale_1_5_grows _ H2) as Hgrow.
    destruct (grow_Done dflt v) as (a & Hg & Hlen & Hlive); [lia.. |].
    rewrite Hg.
    destruct (store_back_Done (Vec a (size_ v) (scale_1_5 (len_ v))
                                 (lower_bound (size_ v))) e)
      as (a' & Hst & Hlen' & Htake); simpl; [lia | lia |].
    simpl in *. rewrite Hst. eexists. split; [done |]. simpl.
    pose proof (lower_bound_le (size_ v)) as Hlb.
    split; [split; simpl; [lia | lia | lia | dlia] |].
    split; [unfold live in *; simpl in *; by rewrite Htake, Hlive |].
    by rewrite Heq.
  - unfold ret.
    destruct (store_back_Done v e) as (a' & Hst & Hlen' & Htake); [lia | lia |].
    rewrite Hst. eexists. split; [done |]. simpl.
    split; [split; simpl; [lia | lia | lia | lia] |].
    split; [unfold live in *; simpl in *; by rewrite Htake |]. done.
Qed.

(** A full buffer of capacity 0 or 1 is not enlarged by [grow], and the
    store that follows falls outside the new block. *)
Lemma add_full_small v e :
  wf v → size_ v = len_ v → len_ v ≤ 1 → add dflt (Outside e) v = Undefined.
Proof.
  intros Hwf Heq Hsmall. pose proof Hwf as [Hs Hb Hm Hl].
  assert (Hbig : 1 ≤ max_slots) by (pow_consts; lia).
  rewrite add_Outside. unfold bind. destruct (Z.eqb_spec (size_ v) (len_ v)); [| lia].
  assert (Hst : scale_1_5 (len_ v) = len_ v) by (apply scale_1_5_stuck; lia).
  destruct (grow_Done dflt v) as (a & Hg & Hlen & _); [lia.. |].
  rewrite Hg. apply store_back_outside. simpl. lia.
Qed.

End add_facts.

(** C1 as stated fails on a full buffer of capacity 1,
    [vec<int> v(1, 5); v.add(6);]: [grow] returns with capacity
    [floor(1 * 1.5) = 1] on a block of one slot that still holds the 5, and
    the store of the new element at slot 1 is outside that block, so the
    call does not end in a buffer with [capacity >= length]. *)
Lemma add_on_full_capacity_one :
  ∃ v, vec_fill 0 1 5 = Done tt v
       ∧ size_ v = len_ v ∧ len_ v = 1 ∧ live v = [5]
       ∧ (∃ v1, grow 0 v = Done tt v1
                ∧ len_ v1 = scale_1_5 1 ∧ len_ v1 = 1 ∧ arr_ v1 = [5]
                ∧ store_back 6 v1 = Undefined)
       ∧ add 0 (Outside 6) v = Undefined
       ∧ ¬ (∃ v', add 0 (Outside 6) v = Done tt v' ∧ size_ v' ≤ len_ v').
Proof.
  eexists. split; [reflexivity |]. repeat split.
  - eexists. split; [reflexivity |]. repeat split.
  - intros (v' & Hadd & _). discriminate Hadd.
Qed.

(** C1, amended to capacities of at least 2 and to elements that are not
    references into the buffer's own block.  [add] of such an element on a
    well-formed full buffer of capacity [c >= 2], when the larger block can
    be allocated, returns with capacity [floor(c * 1.5)] on a block of that
    many slots, every slot below the old length unchanged, the new element
    in the slot after them, and [length = old length + 1 <= capacity]. *)
Theorem add_grows_and_keeps {T : Type} `{EqDecision T} (dflt : T) (v : vec T) (e : T) :
  wf v → size_ v = len_ v → 2 ≤ len_ v → scale_1_5 (len_ v) ≤ max_slots →
  ∃ v', add dflt (Outside e) v = Done tt v'
        ∧ len_ v' = scale_1_5 (len_ v)
        ∧ 2 * len_ v' ≤ 3 * len_ v < 2 * len_ v' + 2
        ∧ Z.of_nat (length (arr_ v')) = len_ v'
        ∧ (∀ i, 0 ≤ i < size_ v →
             arr_ v' !! Z.to_nat i = arr_ v !! Z.to_nat i)
        ∧ arr_ v' !! Z.to_nat (size_ v) = Some e
        ∧ size_ v' = size_ v + 1
        ∧ size_ v' ≤ len_ v'.
Proof.
  intros Hwf Hfull H2 Hfit. pose proof Hwf as [Hs Hb Hm Hl].
  destruct (add_Done dflt v e Hwf) as (v' & Hadd & Hwf' & Hlive & Hsz & Hlen & _);
    [by right |].
  destruct (Z.eqb_spec (size_ v) (len_ v)); [| lia].
  destruct Hwf' as [Hs' Hb' _ _].
  exists v'. split; [done |]. split; [done |].
  split; [rewrite Hlen; unfold scale_1_5; dlia |].
  split; [done |].
  assert (Hslot : ∀ i, 0 ≤ i < size_ v' →
            arr_ v' !! Z.to_nat i = (live v ++ [e]) !! Z.to_nat i).
  { intros i Hi. rewrite <- Hlive. symmetry. by apply live_lookup. }
  pose proof (live_length v ltac:(lia)) as Hll.
  split; [| split; [| split; [done | lia]]].
  - intros i Hi. rewrite Hslot by lia.
    rewrite lookup_app_l by lia. by apply live_lookup.
  - rewrite Hslot by lia. apply list_lookup_middle. lia.
Qed.

Lemma add_grows_and_keeps_witness :
  wf full_2 ∧ size_ full_2 = len_ full_2 ∧ 2 ≤ len_ full_2
  ∧ ∃ v', add 0 (Outside 7) full_2 = Done tt v' ∧ len_ v' = 3 ∧ size_ v' ≤ len_ v'.
Proof.
  assert (Hwf : wf full_2) by (split; simpl; [lia | reflexivity | pow_consts; lia | dlia]).
  split; [exact Hwf |]. split; [reflexivity |]. split; [simpl; lia |].
  destruct (add_grows_and_keeps 0 full_2 7 Hwf)
    as (v' & Hadd & Hlen & _ & _ & _ & _ & _ & Hle);
    [reflexivity | simpl; lia | vm_compute; discriminate |].
  exists v'. split; [exact Hadd |]. split; [exact Hlen | exact Hle].
Defined.

(** C9 (the code departs from it).  A buffer of capacity 0, [vec<int> v(0)]
    or a moved-from object, and [v.add(7)]: [grow] returns with capacity 0
    on an empty block and the store at slot 0 is outside it. *)
Theorem add_on_capacity_zero (g : Z) :
  (∃ v, vec_new g 0 = Done tt v
        ∧ len_ v = 0 ∧ size_ v = 0
        ∧ (∃ v1, grow g v = Done tt v1 ∧ len_ v1 = 0 ∧ arr_ v1 = []
                 ∧ store_back 7 v1 = Undefined)
        ∧ add g (Outside 7) v = Undefined)
  ∧ add g (Outside 7) (Vec [] 0 0 0) = Undefined.
Proof.
  split; [| reflexivity].
  eexists. split; [reflexivity |]. repeat split.
  eexists. split; [reflexivity |]. repeat split.
Qed.

(** ** The shrink threshold *)

(** C2 as stated fails: [vec<int> v(600, 7); v.add(8);] grows from capacity
    600 to 900 and leaves the threshold at [600 / 6 = 100], while the
    capacity gives [900 / 6 = 150]. *)
Lemma threshold_not_from_capacity :
  ∃ v', (vec_fill 0 600 7 ⊳ add 0 (Outside 8))%vec = Done tt v'
        ∧ len_ v' = 900 ∧ minlen_ v' = 100
        ∧ (if len_ v' / 6 >=? 64 then len_ v' / 6 else 0) = 150
        ∧ minlen_ v' ≠ (if len_ v' / 6 >=? 64 then len_ v' / 6 else 0).
Proof.
  eexists. split; [vm_compute; reflexivity |].
  repeat split; try (vm_compute; reflexivity).
  vm_compute. discriminate.
Qed.

(** C2, amended.  [grow] and [shrink] recompute the threshold from the
    live length: [length / 6] if that is at least 64, else 0; for the growth
    inside [add], where the length equals the old capacity, that is the old
    capacity over 6.  The constructors that take an element count and
    [clear] leave the threshold equal to [capacity / 6] if that is at least
    64, else 0; the constructor from a sequence computes it from the length
    of the sequence, and the one from a brace list sets it to 0. *)
Theorem threshold_follows_length {T : Type} `{EqDecision T} (dflt : T) (v : vec T) :
  wf v →
  (scale_1_5 (len_ v) ≤ max_slots →
     ∃ v', grow dflt v = Done tt v'
           ∧ len_ v' = scale_1_5 (len_ v)
           ∧ minlen_ v' = lower_bound (size_ v'))
  ∧ (size_ v = len_ v → 2 ≤ len_ v → scale_1_5 (len_ v) ≤ max_slots →
     ∀ e, ∃ v', add dflt (Outside e) v = Done tt v'
                ∧ len_ v' = scale_1_5 (len_ v)
                ∧ minlen_ v' = lower_bound (len_ v))
  ∧ (size_ v < minlen_ v →
     ∃ v', shrink dflt v = Done tt v'
           ∧ len_ v' = len_ v / 2
           ∧ minlen_ v' = lower_bound (size_ v'))
  ∧ (∀ n, 0 ≤ n ≤ max_slots →
     ∃ c, vec_new dflt n = Done tt c
          ∧ len_ c = n ∧ minlen_ c = lower_bound (len_ c))
  ∧ (∀ n val, 0 ≤ n ≤ max_slots →
     ∃ c, vec_fill dflt n val = Done tt c
          ∧ len_ c = n ∧ minlen_ c = lower_bound (len_ c))
  ∧ (∀ n form, 0 ≤ n ≤ max_slots →
     ∃ c, vec_form dflt n form = Done tt c
          ∧ len_ c = n ∧ minlen_ c = lower_bound (len_ c))
  ∧ (∃ c, clear dflt v = Done tt c
          ∧ len_ c = 32 ∧ minlen_ c = lower_bound (len_ c))
  ∧ (∀ vector : list T, scale_1_5 (Z.of_nat (length vector)) ≤ max_slots →
     ∃ c, vec_of_vector dflt vector = Done tt c
          ∧ len_ c = scale_1_5 (size_ c)
          ∧ minlen_ c = lower_bound (size_ c))
  ∧ (∀ init_list : list T, Z.of_nat (length init_list) ≤ max_slots →
     ∃ c, vec_of_init_list dflt init_list = Done tt c
          ∧ len_ c = 2 * size_ c ∧ minlen_ c = 0).
Proof.
  intros Hwf. pose proof Hwf as [Hs Hb Hm Hl].
  split; [| split; [| split; [| split; [| split; [| split; [| split; [| split]]]]]]].
  - intros Hfit.
    destruct (grow_Done dflt v) as (a & Hg & _); [unfold scale_1_5 in *; dlia.. |].
    eexists. split; [exact Hg |]. done.
  - intros Hfull H2 Hfit e.
    destruct (add_Done dflt v e Hwf) as (v' & Hadd & _ & _ & _ & Hlen & Hmin);
      [right; done |].
    exists v'. split; [done |].
    destruct (Z.eqb_spec (size_ v) (len_ v)); [done | lia].
  - intros Hlt.
    destruct (shrink_Done dflt v) as (a & Hsh & _); [lia | lia | lia | dlia |].
    eexists. split; [exact Hsh |]. done.
  - intros n Hn. unfold vec_new. rewrite new_array_Some by lia.
    eexists. split; [done |]. done.
  - intros n val Hn. unfold vec_fill. rewrite new_array_Some by lia.
    eexists. split; [done |]. done.
  - intros n form Hn. unfold vec_form. rewrite new_array_Some by lia.
    eexists. split; [done |]. done.
  - eexists. split; [reflexivity |]. done.
  - intros vector Hfit. unfold vec_of_vector. cbv zeta.
    rewrite new_array_Some by done.
    rewrite std_move_prefix
      by (rewrite ?length_replicate; unfold scale_1_5 in *; dlia).
    eexists. split; [done |]. done.
  - intros init_list Hfit. unfold vec_of_init_list. cbv zeta.
    rewrite new_array_Some by done.
    rewrite std_move_prefix by (rewrite ?length_replicate; lia).
    eexists. split; [done |]. simpl.
    rewrite wrap_u_small by (pow_consts; lia). split; [lia | done].
Qed.

Lemma threshold_follows_length_witness :
  wf empty_600 ∧ size_ empty_600 < minlen_ empty_600
  ∧ ∃ v', shrink 0 empty_600 = Done tt v' ∧ minlen_ v' = lower_bound (size_ v').
Proof.
  split; [exact wf_empty_600 |]. split; [simpl; lia |].
  destruct (threshold_follows_length 0 empty_600 wf_empty_600)
    as (_ & _ & Hshrink & _).
  destruct Hshrink as (v' & Hsh & _ & Hmin); [simpl; lia |].
  exists v'. split; [exact Hsh | exact Hmin].
Defined.

(** ** Copy assignment *)

(** C10. After [B = A] on distinct objects, with [A] well formed, [B]
    records [A]'s capacity and length on a fresh block of exactly
    [A.size_] slots holding [A]'s live elements; [A] is untouched.  The
    recorded capacity fits the block only when [A] is full. *)
Theorem copy_assign_block_is_length {T : Type} `{EqDecision T} (dflt : T)
    (σ : gmap nat (vec T)) (this o : nat) (A B : vec T) :
  this ≠ o → σ !! this = Some B → σ !! o = Some A → wf A →
  ∃ B', copy_assign dflt this o σ = Done tt (<[this := B']> σ)
        ∧ (<[this := B']> σ) !! o = Some A
        ∧ len_ B' = len_ A ∧ size_ B' = size_ A ∧ minlen_ B' = minlen_ A
        ∧ Z.of_nat (length (arr_ B')) = size_ A
        ∧ live B' = live A
        ∧ (len_ B' ≤ Z.of_nat (length (arr_ B')) ↔ len_ A ≤ size_ A).
Proof.
  intros Hne Hthis Ho [Hs Hb Hm Hl].
  destruct (relocate_Some dflt A (size_ A)) as (a & Hnew & Hmv & Hlen & Hlive);
    [lia.. |].
  eexists. split.
  { unfold copy_assign. rewrite decide_False by done.
    rewrite Hthis, Ho, Hnew, Hmv. reflexivity. }
  simpl. split; [by rewrite lookup_insert_ne |].
  repeat split; try done; lia.
Qed.

Lemma copy_assign_block_is_length_witness :
  ∃ B', copy_assign 0 0 1 two_objects = Done tt (<[0%nat := B']> two_objects)
        ∧ len_ B' = 600 ∧ Z.of_nat (length (arr_ B')) = 0.
Proof.
  destruct (copy_assign_block_is_length 0 two_objects 0 1 empty_600
              (Vec (replicate 32 0) 0 32 0))
    as (B' & Hrun & _ & Hlen & _ & _ & Hblk & _);
    [lia | reflexivity | reflexivity | exact wf_empty_600 |].
  exists B'. split; [exact Hrun |]. split; [exact Hlen | exact Hblk].
Defined.

(** ** Search *)

Section search_facts.
Context {T : Type} `{EqDecision T}.
Implicit Types (v : vec T) (val e : T) (l : list T).

(** The forward loop decides membership in the slots it visits. *)
Lemma scan_front_spec val size l i :
  0 ≤ i ≤ size → size ≤ INT_MAX → size - i ≤ Z.of_nat (length l) →
  scan_front val size l i
  = Some (bool_decide (val ∈ take (Z.to_nat (size - i)) l)).
Proof.
  revert i. induction l as [| x l IH]; intros i Hi Hmax Hlen; simpl in *.
  - rewrite wrap_u_small by (pow_consts; lia).
    destruct (Z.ltb_spec i size); [lia |].
    rewrite take_nil. rewrite bool_decide_eq_false_2; [done | apply not_elem_of_nil].
  - rewrite wrap_u_small by (pow_consts; lia).
    destruct (Z.ltb_spec i size) as [Hlt | Hge].
    + replace (Z.to_nat (size - i)) with (S (Z.to_nat (size - (i + 1)))) by lia.
      simpl. destruct (decide (x = val)) as [-> | Hne].
      * rewrite bool_decide_eq_true_2; [done | left].
      * destruct (Z.ltb_spec INT_MAX (i + 1)); [lia |].
        rewrite IH by lia. f_equal. apply bool_decide_ext.
        rewrite elem_of_cons. split; [by right | intros [? | ?]; [congruence | done]].
    + replace (Z.to_nat (size - i)) with 0%nat by lia. rewrite take_0.
      rewrite bool_decide_eq_false_2; [done | apply not_elem_of_nil].
Qed.

(** [contains(val)] from the front reports membership among the live
    elements. *)
Lemma contains_front_correct v val :
  wf v → size_ v ≤ INT_MAX →
  contains val true v = Done (bool_decide (val ∈ live v)) v.
Proof.
  intros [Hs Hb Hm Hl] Hmax. unfold contains.
  rewrite scan_front_spec by lia. by rewrite Z.sub_0_r.
Qed.

(** The backward loop moves its index up: once started it cannot end
    with [false]. *)
Lemma scan_back_never_false val l i :
  0 ≤ i → scan_back val l i ≠ Some false.
Proof.
  revert i. induction l as [| x l IH]; intros i Hi; simpl.
  - destruct (Z.gtb_spec i (-1)); [done | lia].
  - destruct (Z.gtb_spec i (-1)); [| lia].
    destruct (decide (x = val)); [done |].
    destruct (Z.ltb_spec INT_MAX (i + 1)); [done |].
    apply IH. lia.
Qed.

Lemma contains_back_never_false v val v' :
  1 ≤ size_ v ≤ INT_MAX → contains val false v ≠ Done false v'.
Proof.
  intros Hs. unfold contains. cbv zeta.
  rewrite wrap_u_small by (pow_consts; lia).
  rewrite to_int_small by (pow_consts; lia).
  destruct (Z.gtb_spec (size_ v - 1) (-1)); [| lia].
  destruct (scan_back _ _ _) as [[|] |] eqn:Hscan; try done.
  by apply scan_back_never_false in Hscan; [| lia].
Qed.

(** An empty buffer is the one case where the backward branch answers
    [false]. *)
Lemma contains_back_empty v val :
  size_ v = 0 → contains val false v = Done false v.
Proof. intros Hs. unfold contains. rewrite Hs. reflexivity. Qed.

End search_facts.

(** C5 (the code departs from it).  On [[5]]: [contains(5)] is [true] in
    both directions and [contains(6)] from the front is [false], but
    [contains(6, false)] starts at slot 0 and steps upwards: it never
    returns [false], and with no 6 in the block it reads past its end. *)
Theorem contains_from_back_steps_up (g : Z) :
  ∃ b, only_5 g = Done tt b ∧ live b = [5]
       ∧ contains 5 true b = Done true b
       ∧ contains 5 false b = Done true b
       ∧ contains 6 true b = Done false b
       ∧ contains 6 false b ≠ Done false b
       ∧ (∃ b0, only_5 0 = Done tt b0 ∧ contains 6 false b0 = Undefined).
Proof.
  eexists. split; [reflexivity |]. repeat split.
  - apply contains_back_never_false. split; by vm_compute.
  - eexists. split; [reflexivity |]. vm_compute. reflexivity.
Qed.

(** ** Removal by value *)

Section remove_facts.
Context {T : Type} `{EqDecision T} (dflt : T).
Implicit Types (v : vec T) (e : T) (l : list T).

Lemma scan_to_found e bound l1 l2 i :
  e ∉ l1 → i + Z.of_nat (length l1) < bound →
  scan_to e bound (l1 ++ e :: l2) i = Some (Some (i + Z.of_nat (length l1))).
Proof.
  revert i. induction l1 as [| x l1 IH]; intros i Hnot Hb; simpl in *.
  - destruct (Z.ltb_spec i bound); [| lia].
    rewrite decide_True by done. do 2 f_equal. lia.
  - apply not_elem_of_cons in Hnot as [Hne Hnot].
    destruct (Z.ltb_spec i bound); [| lia].
    rewrite decide_False by done. rewrite IH by (done || lia).
    do 2 f_equal. lia.
Qed.

Lemma scan_to_absent e bound l i :
  e ∉ l → bound - i ≤ Z.of_nat (length l) → scan_to e bound l i = Some None.
Proof.
  revert i. induction l as [| x l IH]; intros i Hnot Hb; simpl in *.
  - destruct (Z.ltb_spec i bound); [lia | done].
  - apply not_elem_of_cons in Hnot as [Hne Hnot].
    destruct (Z.ltb_spec i bound); [| done].
    rewrite decide_False by done. apply IH; [done | lia].
Qed.

(** The block as its live prefix followed by the dead slots. *)
Lemma block_split v :
  wf v →
  ∃ dead, arr_ v = live v ++ dead
          ∧ Z.of_nat (length (live v)) = size_ v
          ∧ Z.of_nat (length dead) = len_ v - size_ v.
Proof.
  intros [Hs Hb Hm Hl]. exists (drop (Z.to_nat (size_ v)) (arr_ v)).
  unfold live. rewrite take_drop, length_take, length_drop.
  split; [done | lia].
Qed.

(** The first live slot equal to [e] is removed and the live elements
    after it move one slot down. *)
Lemma remove_scan_live v e l1 l2 :
  wf v → live v = l1 ++ e :: l2 → e ∉ l1 →
  ∃ v', remove_scan e v = Done tt v' ∧ wf v'
        ∧ live v' = l1 ++ l2
        ∧ size_ v' = size_ v - 1 ∧ len_ v' = len_ v
        ∧ minlen_ v' = minlen_ v.
Proof.
  intros Hwf Hlive Hnot.
  assert (Hbig : max_slots < 2 ^ 64) by (pow_consts; lia).
  destruct (block_split v Hwf) as (dead & Harr & Hll & Hdl).
  destruct Hwf as [Hs Hb Hm Hl]. rewrite Hlive in Harr, Hll.
  clear Hlive. destruct v as [a s c m]. simpl in *. subst a.
  rewrite !length_app in *. simpl in *.
  unfold remove_scan. simpl. rewrite <- app_assoc. simpl.
  rewrite scan_to_found by (done || lia). rewrite Z.add_0_l.
  rewrite std_move_Some by (len_norm; lia).
  eexists. split; [reflexivity |]. simpl.
  rewrite wrap_u_small by lia.
  set (n := length l1) in *.
  assert (Ht : take (Z.to_nat (Z.of_nat n)) (l1 ++ e :: l2 ++ dead) = l1).
  { apply take_app_length'. lia. }
  assert (Hd : take (Z.to_nat (s - (Z.of_nat n + 1)))
                 (drop (Z.to_nat (Z.of_nat n + 1)) (l1 ++ e :: l2 ++ dead)) = l2).
  { rewrite (cons_middle e), app_assoc.
    rewrite drop_app_length' by (len_norm; lia).
    apply take_app_length'. lia. }
  rewrite Ht, Hd.
  split; [| split; [| done]].
  - split; simpl; [lia | | lia | lia].
    len_norm. rewrite length_drop. len_norm. lia.
  - unfold live. simpl. rewrite app_assoc. apply take_app_length'.
    len_norm. lia.
Qed.

(** [remove], with the shrink in front when the length is below the
    threshold. *)
Lemma remove_first_live v e l1 l2 :
  wf v → live v = l1 ++ e :: l2 → e ∉ l1 →
  ∃ v', remove dflt (Outside e) v = Done tt v' ∧ wf v'
        ∧ live v' = l1 ++ l2 ∧ size_ v' = size_ v - 1.
Proof.
  intros Hwf Hlive Hnot. pose proof Hwf as [Hs Hb Hm Hl].
  rewrite remove_Outside. unfold bind. destruct (Z.ltb_spec (size_ v) (minlen_ v)) as [Hlt | Hge].
  - destruct (shrink_Done dflt v) as (a & Hsh & Hlen & Htake); [lia | lia | lia | dlia |].
    rewrite Hsh. pose proof (wf_shrink dflt _ _ Hwf Hlt Hsh) as Hwf'.
    destruct (remove_scan_live _ e l1 l2 Hwf') as (v' & Hrm & ? & ? & ? & _);
      [by rewrite <- Hlive, <- Htake | done |].
    exists v'. by rewrite Hrm.
  - unfold ret.
    destruct (remove_scan_live _ e l1 l2 Hwf Hlive Hnot) as (v' & Hrm & ? & ? & ? & _).
    exists v'. by rewrite Hrm.
Qed.

(** Without a match anywhere in the block the loop ends and nothing
    changes. *)
Lemma remove_scan_absent v e :
  wf v → e ∉ arr_ v → remove_scan e v = Done tt v.
Proof.
  intros [Hs Hb Hm Hl] Hnot. unfold remove_scan.
  by rewrite scan_to_absent by (done || lia).
Qed.

(** The loop runs to [len_], not to [size_]: a match in a slot past the
    live ones calls [std::move] on an inverted range. *)
Lemma remove_scan_dead_match v e :
  wf v → e ∉ live v → e ∈ arr_ v → remove_scan e v = Undefined.
Proof.
  intros Hwf Hnot Hin.
  destruct (block_split v Hwf) as (dead & Harr & Hll & Hdl).
  rewrite Harr in Hin. apply elem_of_app in Hin as [? | Hin]; [done |].
  apply list_elem_of_split_l in Hin as (d1 & d2 & -> & Hd1).
  rewrite length_app in Hdl. simpl in Hdl.
  unfold remove_scan. rewrite Harr, app_assoc.
  rewrite scan_to_found;
    [| by apply not_elem_of_app | rewrite length_app; lia].
  rewrite std_move_inverted; [done |].
  rewrite length_app. lia.
Qed.

End remove_facts.

(** C4 (the code departs from it).  [vec<int> list; list.add(5);
    list.add(10); list.remove(10);] leaves [[5]] with the 10 still in slot 1
    of the block.  A second [list.remove(10)] finds no 10 among the live
    elements, yet the loop matches slot 1 and the call is undefined instead
    of leaving the buffer as it is. *)
Theorem remove_matches_dead_slot (g : Z) :
  ∃ v, (vec_new g 64 ⊳ (add g (Outside 5) ;;; add g (Outside 10) ;;; remove g (Outside 10)))%vec = Done tt v
       ∧ live v = [5] ∧ size_ v = 1 ∧ (10 ∉ live v)
       ∧ scan_to 10 (len_ v) (arr_ v) 0 = Some (Some 1)
       ∧ std_move (arr_ v) (1 + 1) (size_ v) (arr_ v) 1 = None
       ∧ remove g (Outside 10) v = Undefined
       ∧ remove g (Outside 10) v ≠ Done tt v.
Proof.
  eexists. split; [vm_compute; reflexivity |]. repeat split; try done.
  change (10 ∉ [5]).
  intros [? | Hin]%elem_of_cons; [done | by apply not_elem_of_nil in Hin].
Qed.

(** ** Bulk append *)

Section append_facts.
Context {T : Type} `{EqDecision T} (dflt : T).
Implicit Types (v list : vec T).

(** [grow] on a well-formed buffer returns or fails to allocate. *)
Lemma grow_total v :
  wf v →
  (∃ v', grow dflt v = Done tt v' ∧ wf v' ∧ live v' = live v
         ∧ size_ v' = size_ v ∧ len_ v' = scale_1_5 (len_ v))
  ∨ (grow dflt v = BadAlloc ∧ max_slots < scale_1_5 (len_ v)).
Proof.
  intros Hwf. pose proof Hwf as [Hs Hb Hm Hl].
  destruct (Z.leb_spec (scale_1_5 (len_ v)) max_slots) as [Hfit | Hbig].
  - left.
    destruct (grow_Done dflt v) as (a & Hg & Hlen & Hlive);
      [unfold scale_1_5 in *; dlia.. |].
    eexists. split; [exact Hg |].
    split; [by eapply wf_grow |]. done.
  - right. split; [| done]. unfold grow, new_array. cbv zeta.
    destruct (Z.leb_spec (scale_1_5 (len_ v)) max_slots); [lia | done].
Qed.

(** The loop [while (len_ - size_ < need) grow();] ends within
    [need - (len_ - size_)] rounds once the capacity is at least 2. *)
Lemma grow_while_enough need n v :
  wf v → 2 ≤ len_ v ∨ need ≤ len_ v - size_ v →
  need - (len_ v - size_ v) ≤ Z.of_nat n →
  (∃ v', grow_while dflt n need v = Done tt v' ∧ wf v' ∧ live v' = live v
         ∧ size_ v' = size_ v ∧ need ≤ len_ v' - size_ v')
  ∨ grow_while dflt n need v = BadAlloc.
Proof.
  assert (Hbig : max_slots < 2 ^ 64) by (pow_consts; lia).
  revert v. induction n as [| n IH]; intros v Hwf Hcap Hn;
    pose proof Hwf as [Hs Hb Hm Hl]; simpl;
    rewrite wrap_u_small by lia;
    destruct (Z.ltb_spec (len_ v - size_ v) need) as [Hlt | Hge];
    try (left; exists v; repeat split; (done || lia)).
  destruct Hcap as [H2 | ?]; [| exfalso; lia].
  pose proof (scale_1_5_grows _ H2) as Hup. unfold bind.
  destruct (grow_total v Hwf) as [(v1 & Hg & Hwf1 & Hlive1 & Hs1 & Hl1) | [Hg _]];
    rewrite Hg; [| by right].
  destruct (IH v1 Hwf1) as [(v' & Hw & ? & Hlive' & Hs' & ?) | Hw];
    [left; lia | lia | |].
  - left. exists v'. split; [done |]. split; [done |].
    split; [congruence |]. split; [congruence | done].
  - by right.
Qed.

Lemma copy_back_Done src first last v :
  wf v → 0 ≤ first ≤ last → last ≤ Z.of_nat (length src) →
  last - first ≤ len_ v - size_ v →
  ∃ v', copy_back src first last v = Done tt v' ∧ wf v'
        ∧ live v' = live v ++ take (Z.to_nat (last - first))
                                 (drop (Z.to_nat first) src)
        ∧ size_ v' = size_ v + (last - first).
Proof.
  intros Hwf Hr Hsrc Hroom. pose proof Hwf as [Hs Hb Hm Hl].
  assert (Hbig : max_slots < 2 ^ 64) by (pow_consts; lia).
  unfold copy_back.
  destruct (std_move src first last (arr_ v) (size_ v)) as [a |] eqn:Hmv;
    [| by rewrite std_move_Some in Hmv by lia].
  pose proof (std_move_length _ _ _ _ _ _ Hmv) as Hlen.
  rewrite std_move_Some in Hmv by lia. injection Hmv as <-.
  rewrite !wrap_u_small by (rewrite ?wrap_u_small by lia; lia).
  eexists. split; [done |]. simpl.
  split; [split; simpl; lia |]. split; [| done].
  unfold live. simpl. rewrite app_assoc. apply take_app_length'.
  len_norm. rewrite !length_take, length_drop. lia.
Qed.

(** The range test comes first and throws with the object as it was. *)
Lemma append_range_throws fuel list endIndex startIndex v :
  endIndex ≤ startIndex ∨ size_ list < endIndex →
  append_range dflt fuel list endIndex startIndex v = OutOfRange v.
Proof.
  intros Hbad. unfold append_range.
  destruct (Z.geb_spec startIndex endIndex); [done |].
  destruct (Z.gtb_spec endIndex (size_ list)); [done | lia].
Qed.

Lemma grow_while_no_throw fuel need v s :
  grow_while dflt fuel need v ≠ OutOfRange s.
Proof.
  revert v. induction fuel as [| fuel IH]; intros v; simpl;
    destruct (_ <? _); try done.
  unfold bind, grow, new_array. cbv zeta.
  destruct (_ <=? _); [| done].
  destruct (std_move _ _ _ _ _); [apply IH | done].
Qed.

(** With a valid range nothing is thrown, whatever the budget. *)
Lemma append_range_no_throw fuel list endIndex startIndex v s :
  startIndex < endIndex ≤ size_ list →
  append_range dflt fuel list endIndex startIndex v ≠ OutOfRange s.
Proof.
  intros Hok. unfold append_range.
  destruct (Z.geb_spec startIndex endIndex); [lia |].
  destruct (Z.gtb_spec endIndex (size_ list)); [lia |]. simpl. unfold bind.
  destruct (grow_while _ _ _ _) as [[] v1 | s1 | | |] eqn:Hgw; try done.
  - unfold copy_back. by destruct (std_move _ _ _ _ _).
  - by apply grow_while_no_throw in Hgw.
Qed.

(** With a valid range, and a destination that either has the room or a
    capacity of at least 2, the call returns with the range appended,
    unless an allocation fails. *)
Lemma append_range_appends list endIndex startIndex v :
  wf v → wf list → 0 ≤ startIndex → startIndex < endIndex ≤ size_ list →
  2 ≤ len_ v ∨ endIndex - startIndex ≤ len_ v - size_ v →
  ∃ fuel,
    (∃ v', append_range dflt fuel list endIndex startIndex v = Done tt v'
           ∧ wf v'
           ∧ live v' = live v ++ take (Z.to_nat (endIndex - startIndex))
                                    (drop (Z.to_nat startIndex) (arr_ list))
           ∧ size_ v' = size_ v + (endIndex - startIndex))
    ∨ append_range dflt fuel list endIndex startIndex v = BadAlloc.
Proof.
  intros Hwf Hwfl H0 Hok Hcap. pose proof Hwfl as [Hs Hb Hm Hl].
  assert (Hbig : max_slots < 2 ^ 64) by (pow_consts; lia).
  exists (Z.to_nat (endIndex - startIndex - (len_ v - size_ v))).
  unfold append_range.
  destruct (Z.geb_spec startIndex endIndex); [lia |].
  destruct (Z.gtb_spec endIndex (size_ list)); [lia |]. simpl. unfold bind.
  rewrite wrap_u_small by lia.
  destruct (grow_while_enough (endIndex - startIndex)
              (Z.to_nat (endIndex - startIndex - (len_ v - size_ v))) v Hwf)
    as [(v1 & Hgw & Hwf1 & Hlive1 & Hs1 & Hroom) | Hgw];
    [done | lia | |]; rewrite Hgw; [| by right].
  destruct (copy_back_Done (arr_ list) startIndex endIndex v1 Hwf1)
    as (v' & Hcp & Hwf' & Hlive' & Hs'); [lia.. |].
  left. exists v'. by rewrite Hcp, Hlive', Hlive1, Hs', Hs1.
Qed.

End append_facts.

(** C7 (the code departs from it).  [vec<int> d(1); d.append(list, 2, 0);]
    with [list = [1, 2]]: the range is valid, so nothing is thrown, but
    [len_ - size_ = 1 < 2] and [grow] leaves [d] exactly as it is, capacity
    [floor(1 * 1.5) = 1]: the loop in front of the copy never ends and no
    element is appended, whatever the iteration budget. *)
Theorem append_range_spins_on_capacity_one (g : Z) :
  ∃ d list, vec_new g 1 = Done tt d ∧ list_1_2 g = Done tt list
            ∧ live list = [1; 2] ∧ size_ list = 2 ∧ len_ d = 1
            ∧ grow g d = Done tt d
            ∧ ∀ fuel, append_range g fuel list 2 0 d = NoFuel.
Proof.
  eexists. eexists. split; [reflexivity |]. split; [vm_compute; reflexivity |].
  repeat split.
  intros fuel. unfold append_range. simpl. unfold bind.
  replace (grow_while g fuel (wrap_u (2 - 0)) _) with (@NoFuel (vec Z) unit);
    [done |].
  induction fuel as [| fuel IH]; [reflexivity |]. exact IH.
Qed.

(** ** The invariant is kept *)

Section invariant.
Context {T : Type} `{EqDecision T} (dflt : T).
Implicit Types (v list : vec T) (e : T).

Lemma std_move_Some_inv (src dst r : list T) first last d :
  std_move src first last dst d = Some r →
  0 ≤ first ∧ first ≤ last ∧ last ≤ Z.of_nat (length src)
  ∧ 0 ≤ d ∧ d + (last - first) ≤ Z.of_nat (length dst).
Proof. unfold std_move. by case_bool_decide. Qed.

Lemma wf_vec_new n v : 0 ≤ n → vec_new dflt n = Done tt v → wf v.
Proof.
  intros Hn. unfold vec_new, new_array.
  destruct (Z.leb_spec n max_slots); [| done]. intros [= <-].
  pose proof (lower_bound_le n Hn).
  split; simpl; rewrite ?length_replicate; dlia.
Qed.

Lemma wf_vec_fill n val v : 0 ≤ n → vec_fill dflt n val = Done tt v → wf v.
Proof.
  intros Hn. unfold vec_fill, new_array.
  destruct (Z.leb_spec n max_slots); [| done]. intros [= <-].
  pose proof (lower_bound_le n Hn).
  split; simpl; rewrite ?length_replicate; dlia.
Qed.

Lemma wf_clear v v' : clear dflt v = Done tt v' → wf v'.
Proof.
  intros [= <-]. split; simpl; [lia | reflexivity | pow_consts; lia | dlia].
Qed.

Lemma wf_store_back v e v' : wf v → store_back e v = Done tt v' → wf v'.
Proof.
  intros [Hs Hb Hm Hl]. unfold store_back, write.
  case_bool_decide as Hin; [| done]. intros [= <-].
  assert (Hbig : max_slots < 2 ^ 64) by (pow_consts; lia).
  split; simpl; rewrite ?length_insert, ?wrap_u_small by lia; lia.
Qed.

(** A reference that dangles when [add] reads it: the call does not
    return. *)
Lemma add_dangling v (r : cref T) v' :
  deref r (size_ v =? len_ v) (arr_ v) = None → add dflt r v ≠ Done tt v'.
Proof.
  intros Hr. unfold add. cbv zeta. unfold bind. rewrite Hr.
  match goal with
  | |- context [match ?m with Done _ _ => _ | _ => _ end] => by destruct m
  end.
Qed.

Lemma wf_add v (r : cref T) v' : wf v → add dflt r v = Done tt v' → wf v'.
Proof.
  intros Hwf.
  destruct (deref r (size_ v =? len_ v) (arr_ v)) as [e |] eqn:Hr;
    [| intros Hadd; by apply add_dangling in Hadd].
  rewrite (add_deref dflt v r e Hr), add_Outside. unfold bind.
  destruct (size_ v =? len_ v).
  - destruct (grow dflt v) as [[] v1 | | | |] eqn:Hg; try done.
    apply wf_store_back. by eapply wf_grow.
  - by apply wf_store_back.
Qed.

Lemma wf_remove_scan v e v' : wf v → remove_scan e v = Done tt v' → wf v'.
Proof.
  intros Hwf. pose proof Hwf as [Hs Hb Hm Hl]. unfold remove_scan.
  destruct (scan_to _ _ _ _) as [[i |] |]; [| by intros [= <-] | done].
  destruct (std_move _ _ _ _ _) as [a |] eqn:Hmv; [| done]. intros [= <-].
  pose proof (std_move_length _ _ _ _ _ _ Hmv).
  apply std_move_Some_inv in Hmv.
  assert (Hbig : max_slots < 2 ^ 64) by (pow_consts; lia).
  split; simpl; rewrite ?wrap_u_small by lia; lia.
Qed.

Lemma wf_removeAt_shift v index v' :
  wf v → removeAt_shift index v = Done tt v' → wf v'.
Proof.
  intros [Hs Hb Hm Hl]. unfold removeAt_shift.
  destruct (std_move _ _ _ _ _) as [a |] eqn:Hmv; [| done]. intros [= <-].
  pose proof (std_move_length _ _ _ _ _ _ Hmv).
  apply std_move_Some_inv in Hmv.
  assert (Hbig : max_slots < 2 ^ 64) by (pow_consts; lia).
  split; simpl; rewrite ?wrap_u_small by lia; lia.
Qed.

Lemma wf_remove v (r : cref T) v' :
  wf v → remove dflt r v = Done tt v' → wf v'.
Proof.
  intros Hwf.
  destruct (deref r (size_ v <? minlen_ v) (arr_ v)) as [e |] eqn:Hr.
  - rewrite (remove_deref dflt v r e Hr), remove_Outside. unfold bind.
    destruct (Z.ltb_spec (size_ v) (minlen_ v)).
    + destruct (shrink dflt v) as [[] v1 | | | |] eqn:Hsh; try done.
      apply wf_remove_scan. by eapply wf_shrink.
    + by apply wf_remove_scan.
  - unfold remove. cbv zeta. unfold bind. rewrite Hr.
    destruct (Z.ltb_spec (size_ v) (minlen_ v)).
    + destruct (shrink dflt v) as [[] v1 | | | |] eqn:Hsh; try done.
      destruct (0 <? len_ v1); [done |]. intros [= <-]. by eapply wf_shrink.
    + unfold ret. destruct (0 <? len_ v); [done |]. by intros [= <-].
Qed.

Lemma wf_removeAt v index v' :
  wf v → removeAt dflt index v = Done tt v' → wf v'.
Proof.
  intros Hwf. unfold removeAt, bind.
  destruct (Z.ltb_spec (size_ v) (minlen_ v)).
  - destruct (shrink dflt v) as [[] v1 | | | |] eqn:Hsh; try done.
    apply wf_removeAt_shift. by eapply wf_shrink.
  - by apply wf_removeAt_shift.
Qed.

Lemma wf_grow_while fuel need v v' :
  wf v → grow_while dflt fuel need v = Done tt v' → wf v'.
Proof.
  revert v. induction fuel as [| fuel IH]; intros v Hwf; simpl;
    destruct (_ <? _); try done; try by intros [= <-].
  unfold bind. destruct (grow dflt v) as [[] v1 | | | |] eqn:Hg; try done.
  apply IH. by eapply wf_grow.
Qed.

Lemma wf_append_range fuel list endIndex startIndex v v' :
  wf v → append_range dflt fuel list endIndex startIndex v = Done tt v' → wf v'.
Proof.
  intros Hwf. unfold append_range.
  destruct (Z.geb_spec startIndex endIndex); [done |].
  destruct (Z.gtb_spec endIndex (size_ list)); [done |]. simpl. unfold bind.
  destruct (grow_while _ _ _ _) as [[] v1 | | | |] eqn:Hgw; try done.
  apply wf_grow_while in Hgw as [Hs Hb Hm Hl]; [| done].
  unfold copy_back.
  destruct (std_move _ _ _ _ _) as [a |] eqn:Hmv; [| done]. intros [= <-].
  pose proof (std_move_length _ _ _ _ _ _ Hmv).
  apply std_move_Some_inv in Hmv.
  assert (Hbig : max_slots < 2 ^ 64) by (pow_consts; lia).
  split; simpl; rewrite ?wrap_u_small by (rewrite ?wrap_u_small by lia; lia); lia.
Qed.

End invariant.

(** ** The assertions of [TEST()] *)

(** The embedding run on the statements of the header's own test
    function, with [g] in every slot the allocator hands out. *)

(** Test 1: [add] and [remove]. *)
Example test_add_remove (g : Z) :
  value_of ((vec_new g 64 ⊳ (add g (Outside 5) ;;; add g (Outside 10) ;;; add g (Outside 15) ;;; remove g (Outside 10)
                             ;;; size))%vec) = Some 2
  ∧ value_of ((vec_new g 64 ⊳ (add g (Outside 5) ;;; add g (Outside 10) ;;; add g (Outside 15) ;;; remove g (Outside 10)
                               ;;; subscript 1))%vec) = Some 15.
Proof. split; reflexivity. Qed.

(** Test 2: access after the removal. *)
Example test_access (g : Z) :
  ∃ l, object_of ((vec_new g 64 ⊳ (add g (Outside 5) ;;; add g (Outside 10) ;;; add g (Outside 15)
                                   ;;; remove g (Outside 10)))%vec) = Some l
       ∧ value_of (subscript 0 l) = Some 5
       ∧ value_of (at_ (-1) l) = Some 15
       ∧ value_of (at_ (-2) l) = Some 5
       ∧ value_of (subscript 1 l) = Some 15.
Proof. eexists. split; [vm_compute; reflexivity |]. repeat split. Qed.

(** Test 3: after [clear] and three [add]s the iterator range
    [[begin(), end())] holds 5, 10, 15. *)
Example test_iterator (g : Z) (v : vec Z) :
  live <$> object_of ((clear g ;;; add g (Outside 5) ;;; add g (Outside 10) ;;; add g (Outside 15))%vec v)
  = Some [5; 10; 15].
Proof. reflexivity. Qed.

(** Test 5: [contains] after [clear] and [add(5)]; both assertions look
    for a value that is there. *)
Example test_contains (g : Z) (v : vec Z) :
  value_of ((clear g ;;; add g (Outside 5) ;;; contains 5 true)%vec v) = Some true
  ∧ value_of ((clear g ;;; add g (Outside 5) ;;; contains 5 false)%vec v) = Some true.
Proof. split; reflexivity. Qed.

(** Test 6, the range part: [list1.clear(); list1.append(list2, 10, 1);]
    appends slots 1 to 9 of [list2]; here [list2] holds 0 to 9. *)
Example test_append_range (g : Z) (v : vec Z) :
  ∃ list2, object_of (list5 g) = Some list2
           ∧ live <$> object_of ((clear g ;;; append_range g 0 list2 10 1)%vec v)
             = Some [1; 2; 3; 4; 5; 6; 7; 8; 9].
Proof. eexists. split; [vm_compute; reflexivity |]. vm_compute. reflexivity. Qed.

(** Test 7: the copy constructor. *)
Example test_copy_constructor (g : Z) :
  live <$> object_of (list5 g ⊳ (λ o, vec_copy g o))%vec
  = Some [0; 1; 2; 3; 4; 5; 6; 7; 8; 9].
Proof. reflexivity. Qed.

(** Test 8: copy assignment, [vec<int> list7(10); list7 = list5;].  The
    source is full, so the block of [size_] slots is also one of [len_]
    slots. *)
Example test_copy_assignment (g : Z) :
  ∃ l5 l7 σ' c,
    object_of (list5 g) = Some l5 ∧ object_of (vec_new g 10) = Some l7
    ∧ copy_assign g 7 5 (<[7%nat := l7]> {[ 5%nat := l5 ]}) = Done tt σ'
    ∧ σ' !! 7%nat = Some c
    ∧ live c = [0; 1; 2; 3; 4; 5; 6; 7; 8; 9]
    ∧ len_ c = 10 ∧ length (arr_ c) = 10%nat.
Proof.
  eexists _, _, _, _. split; [vm_compute; reflexivity |].
  split; [vm_compute; reflexivity |].
  split; [unfold copy_assign; rewrite decide_False by lia;
          rewrite lookup_insert_eq, lookup_insert_ne, lookup_singleton_eq by lia;
          reflexivity |].
  split; [apply lookup_insert_eq |]. repeat split.
Qed.

(** * Further properties of the member functions *)

Lemma wf_three_of_four : wf three_of_four.
Proof. split; simpl; [lia | reflexivity | pow_consts; lia | dlia]. Defined.

Lemma wf_full_2 : wf full_2.
Proof. split; simpl; [lia | reflexivity | pow_consts; lia | dlia]. Defined.

(** ** [add] *)

(** X1. [add] on a well-formed buffer with a free slot returns with the
    element appended after the live ones, on the same block size and with
    capacity and threshold as they were; the argument may be an object
    outside the block or a reference to a slot of the block, read as [e]. *)
Theorem add_with_room_appends {T : Type} `{EqDecision T} (dflt : T)
    (v : vec T) (r : cref T) (e : T) :
  wf v → size_ v < len_ v → deref r false (arr_ v) = Some e →
  ∃ v', add dflt r v = Done tt v' ∧ wf v'
        ∧ live v' = live v ++ [e]
        ∧ size_ v' = size_ v + 1
        ∧ len_ v' = len_ v ∧ minlen_ v' = minlen_ v.
Proof.
  intros Hwf Hroom Hr.
  rewrite (add_deref dflt v r e)
    by (destruct (Z.eqb_spec (size_ v) (len_ v)); [lia | done]).
  destruct (add_Done dflt v e Hwf) as (v' & Hadd & Hwf' & Hlive & Hsz & Hlen & Hmin);
    [by left |].
  destruct (Z.eqb_spec (size_ v) (len_ v)); [lia |].
  exists v'. done.
Qed.

Lemma add_with_room_appends_witness :
  wf three_of_four ∧ size_ three_of_four < len_ three_of_four
  ∧ ∃ v', add 0 (Outside 20) three_of_four = Done tt v' ∧ live v' = [5; 10; 15; 20].
Proof.
  split; [exact wf_three_of_four |]. split; [simpl; lia |].
  destruct (add_with_room_appends 0 three_of_four (Outside 20) 20
              wf_three_of_four)
    as (v' & Hadd & _ & Hlive & _); [simpl; lia | reflexivity |].
  exists v'. split; [exact Hadd | exact Hlive].
Defined.

Section add_each_facts.
Context {T : Type} `{EqDecision T} (dflt : T).
Implicit Types (v : vec T) (es : list T).

Lemma scale_1_5_mono (x y : Z) : x ≤ y → scale_1_5 x ≤ scale_1_5 y.
Proof. unfold scale_1_5. intros. dlia. Qed.

Lemma add_each_Done es v :
  wf v → 2 ≤ len_ v →
  scale_1_5 (size_ v + Z.of_nat (length es)) ≤ max_slots →
  ∃ v', add_each dflt es v = Done tt v' ∧ wf v'
        ∧ live v' = live v ++ es
        ∧ size_ v' = size_ v + Z.of_nat (length es)
        ∧ len_ v ≤ len_ v'.
Proof.
  revert v. induction es as [| e es IH]; intros v Hwf H2 Hfit; simpl in *.
  - exists v. unfold ret. rewrite app_nil_r, Z.add_0_r. done.
  - pose proof Hwf as [Hs Hb Hm Hl].
    assert (Hroom : size_ v < len_ v
                    ∨ (2 ≤ len_ v ∧ scale_1_5 (len_ v) ≤ max_slots)).
    { destruct (decide (size_ v < len_ v)); [by left | right].
      split; [done |].
      pose proof (scale_1_5_mono (len_ v)
                    (size_ v + Z.of_nat (S (length es)))). lia. }
    destruct (add_Done dflt v e Hwf Hroom)
      as (v1 & Hadd & Hwf1 & Hlive1 & Hsz1 & Hlen1 & _).
    assert (Hle : len_ v ≤ len_ v1).
    { destruct (Z.eqb_spec (size_ v) (len_ v)); [| lia].
      rewrite Hlen1. pose proof (scale_1_5_grows _ H2). lia. }
    destruct (IH v1 Hwf1) as (v' & Hrest & Hwf' & Hlive' & Hsz' & Hle');
      [lia | rewrite Hsz1; by replace (size_ v + 1 + Z.of_nat (length es))
               with (size_ v + Z.of_nat (S (length es))) by lia |].
    exists v'. unfold bind. rewrite Hadd.
    split; [done |]. split; [done |].
    split; [by rewrite Hlive', Hlive1, <- app_assoc |]. lia.
Qed.

End add_each_facts.

(** X2. A run of [add] calls whose arguments are variables of the caller,
    not references into the buffer, on a well-formed buffer of capacity at
    least 2 returns, as long as the blocks it needs can be allocated, with
    the values appended in call order behind the elements that were there:
    the length grows by their number, and slot [i] past the old length
    holds the [i]-th value added. *)
Theorem add_each_appends_in_order {T : Type} `{EqDecision T} (dflt : T)
    (v : vec T) (es : list T) :
  wf v → 2 ≤ len_ v →
  scale_1_5 (size_ v + Z.of_nat (length es)) ≤ max_slots →
  ∃ v', add_each dflt es v = Done tt v' ∧ wf v'
        ∧ live v' = live v ++ es
        ∧ size v' = Done (size_ v + Z.of_nat (length es)) v'
        ∧ ∀ (i : nat) x, es !! i = Some x →
            subscript (size_ v + Z.of_nat i) v' = Done x v'.
Proof.
  intros Hwf H2 Hfit.
  destruct (add_each_Done dflt es v Hwf H2 Hfit)
    as (v' & Hrun & Hwf' & Hlive & Hsz & _).
  exists v'. split; [done |]. split; [done |]. split; [done |].
  split; [unfold size; by rewrite Hsz |].
  intros i x Hx. pose proof Hwf as [Hs Hb _ _].
  pose proof (live_length v ltac:(lia)) as Hll.
  pose proof (lookup_lt_Some _ _ _ Hx) as Hi.
  unfold subscript.
  rewrite (read_Some _ _ x); [done | lia |].
  rewrite <- (live_lookup v') by lia. rewrite Hlive.
  replace (Z.to_nat (size_ v + Z.of_nat i)) with (length (live v) + i)%nat by lia.
  by rewrite lookup_app_r, Nat.add_sub' by lia.
Qed.

Lemma add_each_appends_in_order_witness :
  wf full_2 ∧ 2 ≤ len_ full_2
  ∧ ∃ v', add_each 0 [7; 8; 9] full_2 = Done tt v' ∧ live v' = [5; 5; 7; 8; 9].
Proof.
  split; [exact wf_full_2 |]. split; [simpl; lia |].
  destruct (add_each_appends_in_order 0 full_2 [7; 8; 9] wf_full_2)
    as (v' & Hrun & _ & Hlive & _); [simpl; lia | vm_compute; discriminate |].
  exists v'. split; [exact Hrun | exact Hlive].
Defined.

(** ** [remove] and [removeAt] *)

Section removal_more.
Context {T : Type} `{EqDecision T} (dflt : T).
Implicit Types (v : vec T) (e : T) (l : list T).

(** What [shrink] leaves in the new block: the live elements, then fresh
    slots. *)
Lemma shrink_block v :
  wf v → size_ v < minlen_ v →
  ∃ v1, shrink dflt v = Done tt v1 ∧ wf v1
        ∧ live v1 = live v ∧ size_ v1 = size_ v
        ∧ arr_ v1 = live v ++ replicate (Z.to_nat (len_ v / 2 - size_ v)) dflt.
Proof.
  intros Hwf Hlt. pose proof Hwf as [Hs Hb Hm Hl].
  destruct (shrink_Done dflt v) as (a & Hsh & Hlen & Htake); [lia | lia | lia | dlia |].
  eexists. split; [exact Hsh |].
  split; [by eapply wf_shrink |]. split; [done |]. split; [done |]. simpl.
  revert Hsh. unfold shrink. cbv zeta.
  rewrite new_array_Some by dlia.
  rewrite std_move_prefix by (rewrite ?length_replicate; lia).
  intros [= <-]. unfold live. rewrite drop_replicate. do 2 f_equal. lia.
Qed.


Lemma removeAt_shift_outside v index :
  size_ v ≤ index → removeAt_shift index v = Undefined.
Proof. intros. unfold removeAt_shift. by rewrite std_move_inverted by lia. Qed.

End removal_more.

(** X3. When the argument of [remove] can be read as [e] by the loop (it is
    an object outside the block, or a reference to a slot of the block in a
    call that does not shrink) and [e] occurs among the live elements,
    [remove] deletes the first live occurrence of [e]: the elements in front
    of it stay, the ones behind it move one slot down, the length drops by
    one and the buffer stays well formed. *)
Theorem remove_deletes_first_occurrence {T : Type} `{EqDecision T} (dflt : T)
    (v : vec T) (r : cref T) (e : T) (l1 l2 : list T) :
  wf v → live v = l1 ++ e :: l2 → e ∉ l1 →
  deref r (size_ v <? minlen_ v) (arr_ v) = Some e →
  ∃ v', remove dflt r v = Done tt v' ∧ wf v'
        ∧ live v' = l1 ++ l2
        ∧ size_ v' = size_ v - 1
        ∧ len_ v' = (if size_ v <? minlen_ v then len_ v / 2 else len_ v).
Proof.
  intros Hwf Hlive Hnot Hr.
  rewrite (remove_deref dflt v r e Hr), remove_Outside. unfold bind.
  destruct (Z.ltb_spec (size_ v) (minlen_ v)) as [Hlt | Hge].
  - destruct (shrink_block dflt v Hwf Hlt) as (v1 & Hsh & Hwf1 & Hlive1 & Hsz & _).
    pose proof (shrink_Done dflt v) as Hlen.
    destruct Hwf as [Hs Hb Hm Hl].
    destruct Hlen as (a & Hsh' & _); [lia | lia | lia | dlia |].
    rewrite Hsh in Hsh'. injection Hsh' as ->. rewrite Hsh.
    destruct (remove_scan_live _ e l1 l2 Hwf1) as (v' & Hrm & ? & ? & ? & Hl' & _);
      [by rewrite Hlive1 | done |].
    exists v'. rewrite Hrm. simpl in *.
    split; [done |]. split; [done |]. split; [done |]. split; [lia | done].
  - unfold ret.
    destruct (remove_scan_live _ e l1 l2 Hwf Hlive Hnot) as (v' & Hrm & ? & ? & ? & ? & _).
    exists v'. by rewrite Hrm.
Qed.

Lemma remove_deletes_first_occurrence_witness :
  wf three_of_four ∧ live three_of_four = [5] ++ 10 :: [15]
  ∧ deref (Slot 1) (size_ three_of_four <? minlen_ three_of_four)
      (arr_ three_of_four) = Some 10
  ∧ ∃ v', remove 0 (Slot 1) three_of_four = Done tt v' ∧ live v' = [5; 15].
Proof.
  split; [exact wf_three_of_four |]. split; [reflexivity |].
  split; [reflexivity |].
  destruct (remove_deletes_first_occurrence 0 three_of_four (Slot 1) 10 [5] [15]
              wf_three_of_four) as (v' & Hrm & _ & Hlive & _);
    [reflexivity | | reflexivity |].
  - intros [Heq | Hin]%elem_of_cons; [discriminate Heq |].
    by apply not_elem_of_nil in Hin.
  - exists v'. split; [exact Hrm | exact Hlive].
Defined.

(** X4. When the value is in no slot of the block, live or dead, and is
    not what fresh slots hold, [remove] returns with the live elements and
    the length as they were; without a pending shrink the object is
    unchanged altogether. *)
Theorem remove_absent_keeps_contents {T : Type} `{EqDecision T} (dflt : T)
    (v : vec T) (e : T) :
  wf v → e ∉ arr_ v → e ≠ dflt →
  ∃ v', remove dflt (Outside e) v = Done tt v' ∧ wf v'
        ∧ live v' = live v ∧ size_ v' = size_ v
        ∧ (minlen_ v ≤ size_ v → v' = v).
Proof.
  intros Hwf Hnot Hfresh. rewrite remove_Outside. unfold bind.
  destruct (Z.ltb_spec (size_ v) (minlen_ v)) as [Hlt | Hge].
  - destruct (shrink_block dflt v Hwf Hlt) as (v1 & Hsh & Hwf1 & Hlive & Hsz & Harr).
    rewrite Hsh. exists v1.
    rewrite remove_scan_absent; [| done |].
    + split; [done |]. split; [done |]. split; [done |]. split; [done | lia].
    + rewrite Harr. apply not_elem_of_app. split.
      * intros Hin. apply Hnot. unfold live in Hin.
        by apply (subseteq_take _ _ _ Hin).
      * intros [? _]%elem_of_replicate. done.
  - unfold ret. exists v. by rewrite remove_scan_absent.
Qed.

Lemma remove_absent_keeps_contents_witness :
  wf three_of_four ∧ 7 ≠ 0
  ∧ ∃ v', remove 0 (Outside 7) three_of_four = Done tt v' ∧ live v' = [5; 10; 15].
Proof.
  split; [exact wf_three_of_four |]. split; [discriminate |].
  destruct (remove_absent_keeps_contents 0 three_of_four 7 wf_three_of_four)
    as (v' & Hrm & _ & Hlive & _); [| discriminate |].
  - simpl. intros Hin. repeat (apply elem_of_cons in Hin as [Heq | Hin];
                                [discriminate Heq |]).
    by apply not_elem_of_nil in Hin.
  - exists v'. split; [exact Hrm | exact Hlive].
Defined.

(** X5. The loop of [remove] runs over the whole capacity: when no live
    element equals the value but a slot past the live ones does, and no
    shrink is pending, the call is undefined (an inverted [std::move]
    range) instead of leaving the buffer alone. *)
Theorem remove_stale_match_undefined {T : Type} `{EqDecision T} (dflt : T)
    (v : vec T) (r : cref T) (e : T) :
  wf v → minlen_ v ≤ size_ v → e ∉ live v → e ∈ arr_ v →
  deref r false (arr_ v) = Some e →
  remove dflt r v = Undefined.
Proof.
  intros Hwf Hge Hnot Hin Hr.
  rewrite (remove_deref dflt v r e)
    by (destruct (Z.ltb_spec (size_ v) (minlen_ v)); [lia | done]).
  rewrite remove_Outside. unfold bind.
  destruct (Z.ltb_spec (size_ v) (minlen_ v)); [lia |].
  unfold ret. by apply remove_scan_dead_match.
Qed.

Lemma remove_stale_match_undefined_witness :
  wf three_of_four ∧ remove 0 (Outside 0) three_of_four = Undefined.
Proof.
  split; [exact wf_three_of_four |].
  apply (remove_stale_match_undefined 0 three_of_four (Outside 0) 0
           wf_three_of_four).
  - simpl. lia.
  - change (0 ∉ [5; 10; 15]). intros Hin.
    repeat (apply elem_of_cons in Hin as [Heq | Hin]; [discriminate Heq |]).
    by apply not_elem_of_nil in Hin.
  - simpl. do 3 apply list_elem_of_further. apply list_elem_of_here.
  - reflexivity.
Defined.



(** X7. [removeAt] does not check its index: on a well-formed buffer an
    index at or past the length, which includes every index on an empty
    buffer, makes the call undefined. *)
Theorem removeAt_past_length_undefined {T : Type} `{EqDecision T} (dflt : T)
    (v : vec T) (index : Z) :
  wf v → size_ v ≤ index → removeAt dflt index v = Undefined.
Proof.
  intros Hwf Hi. unfold removeAt, bind.
  destruct (Z.ltb_spec (size_ v) (minlen_ v)) as [Hlt | Hge].
  - destruct (shrink_block dflt v Hwf Hlt) as (v1 & Hsh & _ & _ & Hsz & _).
    rewrite Hsh. apply removeAt_shift_outside. lia.
  - unfold ret. by apply removeAt_shift_outside.
Qed.

Lemma removeAt_past_length_undefined_witness :
  wf three_of_four ∧ size_ three_of_four ≤ 3
  ∧ removeAt 0 3 three_of_four = Undefined.
Proof.
  split; [exact wf_three_of_four |]. split; [simpl; lia |].
  apply (removeAt_past_length_undefined 0 three_of_four 3 wf_three_of_four).
  simpl. lia.
Defined.

(** ** [contains] *)

Section search_more.
Context {T : Type} `{EqDecision T}.
Implicit Types (v : vec T) (val : T) (l : list T).

(** The backward loop, which moves up from its start, finds the value
    exactly when it is in a slot from the start on. *)
Lemma scan_back_spec val l i :
  0 ≤ i → i + Z.of_nat (length l) ≤ INT_MAX + 1 →
  scan_back val l i = if bool_decide (val ∈ l) then Some true else None.
Proof.
  revert i. induction l as [| x l IH]; intros i Hi Hlen; simpl in *.
  - destruct (Z.gtb_spec i (-1)); [| lia].
    by rewrite ?bool_decide_eq_false_2 by apply not_elem_of_nil.
  - destruct (Z.gtb_spec i (-1)); [| lia].
    destruct (decide (x = val)) as [-> | Hne].
    + by rewrite bool_decide_eq_true_2 by left.
    + assert (Hext : bool_decide (val ∈ x :: l) = bool_decide (val ∈ l)).
      { apply bool_decide_ext. rewrite elem_of_cons.
        split; [intros [? | ?]; [congruence | done] | by right]. }
      rewrite Hext.
      destruct (Z.ltb_spec INT_MAX (i + 1)) as [Hover | Hok].
      * destruct l; [| simpl in Hlen; lia].
        by rewrite bool_decide_eq_false_2 by apply not_elem_of_nil.
      * apply IH; lia.
Qed.

End search_more.

(** X8. [contains] from the front, on a well-formed buffer of at most
    [INT_MAX] elements, returns whether some live element equals the value,
    and leaves the buffer as it is. *)
Theorem contains_front_is_membership {T : Type} `{EqDecision T}
    (v : vec T) (val : T) :
  wf v → size_ v ≤ INT_MAX →
  (val ∈ live v → contains val true v = Done true v)
  ∧ (val ∉ live v → contains val true v = Done false v).
Proof.
  intros Hwf Hmax. rewrite (contains_front_correct v val Hwf Hmax).
  split; intros Hin.
  - by rewrite bool_decide_eq_true_2.
  - by rewrite bool_decide_eq_false_2.
Qed.

Lemma contains_front_is_membership_witness :
  wf three_of_four ∧ size_ three_of_four ≤ INT_MAX
  ∧ contains 10 true three_of_four = Done true three_of_four.
Proof.
  split; [exact wf_three_of_four |]. split; [vm_compute; discriminate |].
  destruct (contains_front_is_membership three_of_four 10 wf_three_of_four)
    as [Hyes _]; [vm_compute; discriminate |].
  apply Hyes. change (10 ∈ [5; 10; 15]).
  apply list_elem_of_further, list_elem_of_here.
Defined.

(** X9. [contains] from the back, on a well-formed non-empty buffer of
    capacity at most [INT_MAX], looks at the last live slot and then at the
    slots after it: it returns [true] when one of those holds the value and
    is undefined otherwise, so a value that sits only in an earlier live
    slot is not found. *)
Theorem contains_back_scans_upwards {T : Type} `{EqDecision T}
    (v : vec T) (val : T) :
  wf v → 1 ≤ size_ v → len_ v ≤ INT_MAX →
  contains val false v
  = if bool_decide (val ∈ drop (Z.to_nat (size_ v - 1)) (arr_ v))
    then Done true v else Undefined.
Proof.
  intros [Hs Hb Hm Hl] H1 Hmax. unfold contains. cbv zeta.
  assert (Hint : INT_MAX < 2 ^ 31) by (pow_consts; lia).
  rewrite wrap_u_small by (pow_consts; lia).
  rewrite to_int_small by lia.
  destruct (Z.gtb_spec (size_ v - 1) (-1)); [| lia].
  rewrite scan_back_spec by (rewrite ?length_drop; lia).
  by case_bool_decide.
Qed.

Lemma contains_back_scans_upwards_witness :
  wf three_of_four ∧ 1 ≤ size_ three_of_four ∧ len_ three_of_four ≤ INT_MAX
  ∧ contains 5 false three_of_four = Undefined
  ∧ contains 15 false three_of_four = Done true three_of_four.
Proof.
  split; [exact wf_three_of_four |]. split; [simpl; lia |].
  split; [vm_compute; discriminate |].
  rewrite !(contains_back_scans_upwards three_of_four _ wf_three_of_four)
    by (vm_compute; discriminate).
  split; reflexivity.
Defined.

(** ** [append] *)

Section append_more.
Context {T : Type} `{EqDecision T} (dflt : T).
Implicit Types (v list o : vec T).

(** The growth loop returns when every block it asks for fits. *)
Lemma grow_while_fits need n v :
  wf v → 2 ≤ len_ v ∨ need ≤ len_ v - size_ v →
  scale_1_5 (size_ v + need) ≤ max_slots →
  need - (len_ v - size_ v) ≤ Z.of_nat n →
  ∃ v', grow_while dflt n need v = Done tt v' ∧ wf v' ∧ live v' = live v
        ∧ size_ v' = size_ v ∧ need ≤ len_ v' - size_ v'.
Proof.
  assert (Hbig : max_slots < 2 ^ 64) by (pow_consts; lia).
  revert v. induction n as [| n IH]; intros v Hwf Hcap Hfit Hn;
    pose proof Hwf as [Hs Hb Hm Hl]; simpl;
    rewrite wrap_u_small by lia;
    destruct (Z.ltb_spec (len_ v - size_ v) need) as [Hlt | Hge];
    try (exists v; repeat split; (done || lia)).
  destruct Hcap as [H2 | ?]; [| exfalso; lia].
  pose proof (scale_1_5_grows _ H2) as Hup. unfold bind.
  pose proof (scale_1_5_mono (len_ v) (size_ v + need) ltac:(lia)) as Hmono.
  destruct (grow_total dflt v Hwf) as [(v1 & Hg & Hwf1 & Hlive1 & Hs1 & Hl1) | [_ ?]];
    [| exfalso; lia].
  rewrite Hg.
  destruct (IH v1 Hwf1) as (v' & Hw & ? & Hlive' & Hs' & ?);
    [left; lia | by rewrite Hs1 | lia |].
  exists v'. split; [done |]. split; [done |].
  split; [congruence |]. split; [congruence | done].
Qed.

Lemma wf_copy_back src first last v v' :
  wf v → copy_back src first last v = Done tt v' → wf v'.
Proof.
  intros [Hs Hb Hm Hl]. unfold copy_back.
  destruct (std_move _ _ _ _ _) as [a |] eqn:Hmv; [| done]. intros [= <-].
  pose proof (std_move_length _ _ _ _ _ _ Hmv).
  apply std_move_Some_inv in Hmv.
  assert (Hbig : max_slots < 2 ^ 64) by (pow_consts; lia).
  split; simpl; rewrite ?wrap_u_small by (rewrite ?wrap_u_small by lia; lia); lia.
Qed.

Lemma wf_append fuel o v v' :
  wf v → append dflt fuel o v = Done tt v' → wf v'.
Proof.
  intros Hwf. unfold append, bind.
  destruct (grow_while _ _ _ _) as [[] v1 | | | |] eqn:Hgw; try done.
  apply wf_copy_back. by eapply wf_grow_while.
Qed.

(** A sub-range of the live elements, read from the block. *)
Lemma block_range_live list first last :
  0 ≤ first ≤ last → last ≤ size_ list →
  take (Z.to_nat (last - first)) (drop (Z.to_nat first) (arr_ list))
  = take (Z.to_nat (last - first)) (drop (Z.to_nat first) (live list)).
Proof.
  intros Hr Hl. unfold live. rewrite skipn_firstn_comm, take_take.
  f_equal. lia.
Qed.

End append_more.

(** X10. [append] of another well-formed buffer onto a well-formed one
    that has the room or a capacity of at least 2, when the blocks of the
    growth fit, returns after finitely many rounds of growth with all live
    elements of the other buffer copied behind its own, in order. *)
Theorem append_adds_all_elements {T : Type} `{EqDecision T} (dflt : T)
    (v o : vec T) :
  wf v → wf o →
  2 ≤ len_ v ∨ size_ o ≤ len_ v - size_ v →
  scale_1_5 (size_ v + size_ o) ≤ max_slots →
  ∃ fuel v', append dflt fuel o v = Done tt v' ∧ wf v'
             ∧ live v' = live v ++ live o
             ∧ size_ v' = size_ v + size_ o.
Proof.
  intros Hwf Hwfo Hcap Hfit. pose proof Hwfo as [Hs Hb Hm Hl].
  exists (Z.to_nat (size_ o - (len_ v - size_ v))).
  destruct (grow_while_fits dflt (size_ o)
              (Z.to_nat (size_ o - (len_ v - size_ v))) v Hwf Hcap Hfit)
    as (v1 & Hgw & Hwf1 & Hlive1 & Hs1 & Hroom); [lia |].
  destruct (copy_back_Done (arr_ o) 0 (size_ o) v1 Hwf1)
    as (v' & Hcp & Hwf' & Hlive' & Hs'); [lia.. |].
  exists v'. unfold append, bind. rewrite Hgw, Hcp.
  split; [done |]. split; [done |].
  split; [| lia].
  rewrite Hlive', Hlive1, Z.sub_0_r. by rewrite drop_0.
Qed.

Lemma append_adds_all_elements_witness :
  wf full_2 ∧ wf three_of_four
  ∧ ∃ fuel v', append 0 fuel three_of_four full_2 = Done tt v'
               ∧ live v' = [5; 5; 5; 10; 15].
Proof.
  split; [exact wf_full_2 |]. split; [exact wf_three_of_four |].
  destruct (append_adds_all_elements 0 full_2 three_of_four
              wf_full_2 wf_three_of_four)
    as (fuel & v' & Hrun & _ & Hlive & _);
    [left; simpl; lia | vm_compute; discriminate |].
  exists fuel, v'. split; [exact Hrun | exact Hlive].
Defined.

(** X11. The range form of [append] throws [std::out_of_range] exactly
    when [startIndex >= endIndex] or [endIndex > list.size_], and it throws
    before touching the destination: the object at the throw is the object
    of the call. *)
Theorem append_range_throws_on_bad_range_only {T : Type} `{EqDecision T}
    (dflt : T) (fuel : nat) (list v : vec T) (endIndex startIndex : Z) :
  (endIndex ≤ startIndex ∨ size_ list < endIndex →
     append_range dflt fuel list endIndex startIndex v = OutOfRange v)
  ∧ (∀ s, append_range dflt fuel list endIndex startIndex v = OutOfRange s →
       (endIndex ≤ startIndex ∨ size_ list < endIndex) ∧ s = v).
Proof.
  split; [apply append_range_throws |].
  intros s Hthrow.
  destruct (decide (endIndex ≤ startIndex ∨ size_ list < endIndex)) as [Hbad | Hok].
  - split; [done |].
    rewrite append_range_throws in Hthrow by done. by injection Hthrow.
  - exfalso. eapply (append_range_no_throw dflt); [| exact Hthrow]. lia.
Qed.

(** X12. The range form of [append] with a valid range, on a well-formed
    destination that has the room or a capacity of at least 2, when the
    blocks of the growth fit, returns after finitely many rounds of growth
    with exactly the live elements [list[startIndex .. endIndex)] copied
    behind its own. *)
Theorem append_range_adds_the_range {T : Type} `{EqDecision T} (dflt : T)
    (v list : vec T) (endIndex startIndex : Z) :
  wf v → wf list → 0 ≤ startIndex → startIndex < endIndex ≤ size_ list →
  2 ≤ len_ v ∨ endIndex - startIndex ≤ len_ v - size_ v →
  scale_1_5 (size_ v + (endIndex - startIndex)) ≤ max_slots →
  ∃ fuel v', append_range dflt fuel list endIndex startIndex v = Done tt v'
             ∧ wf v'
             ∧ live v' = live v ++ take (Z.to_nat (endIndex - startIndex))
                                      (drop (Z.to_nat startIndex) (live list))
             ∧ size_ v' = size_ v + (endIndex - startIndex).
Proof.
  intros Hwf Hwfl H0 Hok Hcap Hfit. pose proof Hwfl as [Hs Hb Hm Hl].
  assert (Hbig : max_slots < 2 ^ 64) by (pow_consts; lia).
  exists (Z.to_nat (endIndex - startIndex - (len_ v - size_ v))).
  destruct (grow_while_fits dflt (endIndex - startIndex)
              (Z.to_nat (endIndex - startIndex - (len_ v - size_ v))) v Hwf Hcap Hfit)
    as (v1 & Hgw & Hwf1 & Hlive1 & Hs1 & Hroom); [lia |].
  destruct (copy_back_Done (arr_ list) startIndex endIndex v1 Hwf1)
    as (v' & Hcp & Hwf' & Hlive' & Hs'); [lia.. |].
  exists v'. unfold append_range.
  destruct (Z.geb_spec startIndex endIndex); [lia |].
  destruct (Z.gtb_spec endIndex (size_ list)); [lia |]. simpl. unfold bind.
  rewrite wrap_u_small by lia. rewrite Hgw, Hcp.
  split; [done |]. split; [done |]. split; [| lia].
  rewrite Hlive', Hlive1. f_equal. apply block_range_live; lia.
Qed.

Lemma append_range_adds_the_range_witness :
  wf full_2 ∧ wf three_of_four ∧ 1 < 3 ≤ size_ three_of_four
  ∧ ∃ fuel v', append_range 0 fuel three_of_four 3 1 full_2 = Done tt v'
               ∧ live v' = [5; 5; 10; 15].
Proof.
  split; [exact wf_full_2 |]. split; [exact wf_three_of_four |].
  split; [simpl; lia |].
  destruct (append_range_adds_the_range 0 full_2 three_of_four 3 1
              wf_full_2 wf_three_of_four)
    as (fuel & v' & Hrun & _ & Hlive & _);
    [lia | simpl; lia | left; simpl; lia | vm_compute; discriminate |].
  exists fuel, v'. split; [exact Hrun | exact Hlive].
Defined.

(** ** The invariant *)

(** X13. Every modifier that returns on a well-formed buffer leaves a
    well-formed buffer: the length stays within the recorded capacity, the
    block has exactly that many slots, and the threshold stays at most half
    the capacity. *)
Theorem modifiers_keep_well_formed {T : Type} `{EqDecision T} (dflt : T)
    (v : vec T) :
  wf v →
  (∀ (r : cref T) v', add dflt r v = Done tt v' → wf v')
  ∧ (∀ (r : cref T) v', remove dflt r v = Done tt v' → wf v')
  ∧ (∀ index v', removeAt dflt index v = Done tt v' → wf v')
  ∧ (∀ v', clear dflt v = Done tt v' → wf v')
  ∧ (∀ fuel o v', append dflt fuel o v = Done tt v' → wf v')
  ∧ (∀ fuel list endIndex startIndex v',
       append_range dflt fuel list endIndex startIndex v = Done tt v' → wf v').
Proof.
  intros Hwf. split; [| split; [| split; [| split; [| split]]]].
  - intros r v'. by apply wf_add.
  - intros r v'. by apply wf_remove.
  - intros index v'. by apply wf_removeAt.
  - intros v'. apply wf_clear.
  - intros fuel o v'. by apply wf_append.
  - intros fuel list endIndex startIndex v'. by apply wf_append_range.
Qed.

Lemma modifiers_keep_well_formed_witness :
  wf three_of_four
  ∧ ∃ v', add 0 (Outside 20) three_of_four = Done tt v' ∧ wf v'.
Proof.
  split; [exact wf_three_of_four |].
  destruct (modifiers_keep_well_formed 0 three_of_four wf_three_of_four)
    as (Hadd & _).
  eexists. split; [vm_compute; reflexivity |].
  apply (Hadd (Outside 20)). vm_compute. reflexivity.
Defined.

(** ** Copies, brace lists and counted constructors *)

Section access_more.
Context {T : Type} `{EqDecision T}.
Implicit Types (v : vec T).

Lemma at_nonneg_Done v i x :
  wf v → 0 ≤ i < size_ v → arr_ v !! Z.to_nat i = Some x →
  at_ i v = Done x v.
Proof.
  intros [Hs Hb Hm Hl] Hi Hx.
  assert (Hmax : max_slots < 2 ^ 63) by (pow_consts; lia).
  unfold at_. destruct (Z.ltb_spec i 0); [lia |].
  rewrite wrap_u_small by (pow_consts; lia).
  destruct (Z.ltb_spec i (size_ v)); [| lia].
  by rewrite (read_Some _ _ x) by (lia || done).
Qed.

Lemma at_last_Done v x :
  wf v → 1 ≤ size_ v → arr_ v !! Z.to_nat (size_ v - 1) = Some x →
  at_ (-1) v = Done x v.
Proof.
  intros [Hs Hb Hm Hl] Hi Hx.
  assert (Hmax : max_slots < 2 ^ 63) by (pow_consts; lia).
  unfold at_. destruct (Z.ltb_spec (-1) 0); [| lia]. cbv zeta.
  rewrite wrap_s_small by lia.
  destruct (Z.geb_spec (size_ v + -1) 0); [| lia].
  replace (size_ v + -1) with (size_ v - 1) by lia.
  by rewrite (read_Some _ _ x) by (lia || done).
Qed.

End access_more.

(** X14. The copy constructor on a well-formed source returns a
    well-formed buffer with the same live elements, length, capacity and
    threshold, on a block of [len_] slots of its own. *)
Theorem copy_constructor_duplicates {T : Type} `{EqDecision T} (dflt : T)
    (o : vec T) :
  wf o →
  ∃ c, vec_copy dflt o = Done tt c ∧ wf c
       ∧ live c = live o
       ∧ size_ c = size_ o ∧ len_ c = len_ o ∧ minlen_ c = minlen_ o
       ∧ Z.of_nat (length (arr_ c)) = len_ o.
Proof.
  intros [Hs Hb Hm Hl].
  destruct (relocate_Some dflt o (len_ o)) as (a & Hnew & Hmv & Hlen & Hlive);
    [lia.. |].
  eexists. split; [unfold vec_copy; rewrite Hnew, Hmv; reflexivity |].
  split; [split; simpl; lia |]. done.
Qed.

Lemma copy_constructor_duplicates_witness :
  wf three_of_four
  ∧ ∃ c, vec_copy 0 three_of_four = Done tt c ∧ live c = [5; 10; 15].
Proof.
  split; [exact wf_three_of_four |].
  destruct (copy_constructor_duplicates 0 three_of_four wf_three_of_four)
    as (c & Hrun & _ & Hlive & _).
  exists c. split; [exact Hrun | exact Hlive].
Defined.

(** X15. Copy assignment from a well-formed source that is not full leaves
    the target with a block of [size_] slots under a larger recorded
    capacity, so the next [add] on the target, whatever its argument,
    stores outside the block; from a full source the target is well
    formed. *)
Theorem copy_assign_then_add {T : Type} `{EqDecision T} (dflt : T)
    (σ : gmap nat (vec T)) (this o : nat) (A B : vec T) :
  this ≠ o → σ !! this = Some B → σ !! o = Some A → wf A →
  ∃ B', copy_assign dflt this o σ = Done tt (<[this := B']> σ)
        ∧ live B' = live A
        ∧ (size_ A = len_ A → wf B')
        ∧ (size_ A < len_ A → ∀ r : cref T, add dflt r B' = Undefined).
Proof.
  intros Hne Hthis Ho [Hs Hb Hm Hl].
  destruct (relocate_Some dflt A (size_ A)) as (a & Hnew & Hmv & Hlen & Hlive);
    [lia.. |].
  eexists. split.
  { unfold copy_assign. rewrite decide_False by done.
    rewrite Hthis, Ho, Hnew, Hmv. reflexivity. }
  split; [done |]. split.
  - intros Hfull. split; simpl; lia.
  - intros Hroom. apply add_Undefined_cref. intros e.
    rewrite add_Outside. unfold bind. simpl.
    destruct (Z.eqb_spec (size_ A) (len_ A)); [lia |].
    unfold ret. apply store_back_outside. simpl. lia.
Qed.

Lemma copy_assign_then_add_witness :
  ∃ B', copy_assign 0 0 1 two_objects = Done tt (<[0%nat := B']> two_objects)
        ∧ add 0 (Outside 7) B' = Undefined.
Proof.
  destruct (copy_assign_then_add 0 two_objects 0 1 empty_600
              (Vec (replicate 32 0) 0 32 0))
    as (B' & Hrun & _ & _ & Hadd);
    [lia | reflexivity | reflexivity | exact wf_empty_600 |].
  exists B'. split; [exact Hrun |]. apply (Hadd ltac:(simpl; lia) (Outside 7)).
Defined.

(** X16. The brace-list constructor copies the list into a block of as
    many slots as the list has elements and records twice that as the
    capacity; the live elements are the list, and the first [add] on the
    new buffer, whatever the list and the argument, stores outside the
    block. *)
Theorem brace_list_then_add {T : Type} `{EqDecision T} (dflt : T)
    (init_list : list T) :
  Z.of_nat (length init_list) ≤ max_slots →
  ∃ c, vec_of_init_list dflt init_list = Done tt c
       ∧ live c = init_list
       ∧ length (arr_ c) = length init_list
       ∧ len_ c = 2 * Z.of_nat (length init_list)
       ∧ ∀ r : cref T, add dflt r c = Undefined.
Proof.
  intros Hfit. unfold vec_of_init_list. cbv zeta.
  rewrite new_array_Some by done.
  rewrite std_move_prefix by (rewrite ?length_replicate; lia).
  rewrite Nat2Z.id, firstn_all, drop_replicate, Nat.sub_diag. simpl.
  rewrite app_nil_r, wrap_u_small by (pow_consts; lia).
  eexists. split; [reflexivity |]. unfold live. simpl.
  split; [by rewrite Nat2Z.id, firstn_all |]. split; [done |].
  split; [lia |].
  apply add_Undefined_cref.
  intros e. rewrite add_Outside. unfold bind. simpl.
  destruct (Z.eqb_spec (Z.of_nat (length init_list))
              (Z.of_nat (length init_list) * 2)) as [Heq | Hne].
  - destruct init_list; [reflexivity | simpl in Heq; lia].
  - unfold ret. apply store_back_outside. simpl. lia.
Qed.

Lemma brace_list_then_add_witness :
  ∃ c, vec_of_init_list 0 [5; 10; 15] = Done tt c
       ∧ live c = [5; 10; 15] ∧ add 0 (Outside 20) c = Undefined.
Proof.
  destruct (brace_list_then_add 0 [5; 10; 15]) as (c & Hrun & Hlive & _ & _ & Hadd);
    [vm_compute; discriminate |].
  exists c. split; [exact Hrun |]. split; [exact Hlive | apply (Hadd (Outside 20))].
Defined.

(** X17. The constructors that take an element count [n] return
    well-formed buffers of capacity [n]: the plain one is empty, the one
    with a fill value holds [n] copies of it, and the one with a generator
    holds [form(i)] in slot [i], which [at(i)] returns. *)
Theorem counted_constructors {T : Type} `{EqDecision T} (dflt : T) (n : Z) :
  0 ≤ n ≤ max_slots →
  (∃ c, vec_new dflt n = Done tt c ∧ wf c ∧ live c = [] ∧ len_ c = n)
  ∧ (∀ val, ∃ c, vec_fill dflt n val = Done tt c ∧ wf c
                 ∧ live c = replicate (Z.to_nat n) val ∧ len_ c = n)
  ∧ (∀ form, ∃ c, vec_form dflt n form = Done tt c ∧ wf c
                  ∧ size_ c = n ∧ len_ c = n
                  ∧ ∀ i, 0 ≤ i < n → at_ i c = Done (form i) c).
Proof.
  intros Hn. pose proof (lower_bound_le n ltac:(lia)) as Hlb.
  split; [| split].
  - unfold vec_new. rewrite new_array_Some by lia.
    eexists. split; [reflexivity |].
    split; [split; simpl; rewrite ?length_replicate; dlia |]. done.
  - intros val. unfold vec_fill. rewrite new_array_Some by lia.
    eexists. split; [reflexivity |].
    split; [split; simpl; rewrite ?length_replicate; dlia |].
    unfold live. simpl. rewrite length_replicate.
    split; [| done]. by rewrite take_replicate, Nat.min_id.
  - intros form. unfold vec_form. rewrite new_array_Some by lia.
    rewrite length_replicate.
    eexists. split; [reflexivity |].
    assert (Hwf : wf (Vec ((λ i : nat, form (Z.of_nat i)) <$> seq 0 (Z.to_nat n))
                        n n (lower_bound n))).
    { split; simpl; rewrite ?length_fmap, ?length_seq; dlia. }
    split; [done |]. split; [done |]. split; [done |].
    intros i Hi. apply at_nonneg_Done; [done | done |]. simpl.
    rewrite list_lookup_fmap, lookup_seq_lt by lia. simpl.
    do 2 f_equal. lia.
Qed.

Lemma counted_constructors_witness :
  0 ≤ 3 ≤ max_slots
  ∧ ∃ c, vec_form 0 3 (λ i, 2 * i) = Done tt c ∧ at_ 2 c = Done 4 c.
Proof.
  split; [vm_compute; split; discriminate |].
  destruct (counted_constructors 0 3) as (_ & _ & Hform);
    [vm_compute; split; discriminate |].
  destruct (Hform (λ i, 2 * i)) as (c & Hrun & _ & _ & _ & Hat).
  exists c. split; [exact Hrun |]. apply (Hat 2). lia.
Defined.

(** ** Round trips *)

(** X18. When the argument of [add] can be read as [e] at the store (it is
    an object outside the block, or a reference to a slot of the block in a
    call that does not grow), the call returns, [at(-1)] then yields [e],
    and [contains] from the front finds it. *)
Theorem add_then_last_and_contains {T : Type} `{EqDecision T} (dflt : T)
    (v : vec T) (r : cref T) (e : T) :
  wf v →
  size_ v < len_ v ∨ (2 ≤ len_ v ∧ scale_1_5 (len_ v) ≤ max_slots) →
  deref r (size_ v =? len_ v) (arr_ v) = Some e →
  ∃ v', add dflt r v = Done tt v'
        ∧ at_ (-1) v' = Done e v'
        ∧ (size_ v' ≤ INT_MAX → contains e true v' = Done true v').
Proof.
  intros Hwf Hroom Hr. rewrite (add_deref dflt v r e Hr).
  pose proof Hwf as [Hs Hb Hm Hl].
  destruct (add_Done dflt v e Hwf Hroom) as (v' & Hadd & Hwf' & Hlive & Hsz & _).
  pose proof (live_length v ltac:(lia)) as Hll.
  exists v'. split; [done |]. split.
  - apply at_last_Done; [done | lia |].
    rewrite <- (live_lookup v') by lia. rewrite Hlive.
    apply list_lookup_middle. lia.
  - intros Hmax. rewrite contains_front_correct by done.
    rewrite bool_decide_eq_true_2; [done |].
    rewrite Hlive. apply elem_of_app. right. apply list_elem_of_here.
Qed.

Lemma add_then_last_and_contains_witness :
  wf three_of_four
  ∧ deref (Slot 0) (size_ three_of_four =? len_ three_of_four)
      (arr_ three_of_four) = Some 5
  ∧ ∃ v', add 0 (Slot 0) three_of_four = Done tt v' ∧ at_ (-1) v' = Done 5 v'.
Proof.
  split; [exact wf_three_of_four |]. split; [reflexivity |].
  destruct (add_then_last_and_contains 0 three_of_four (Slot 0) 5
              wf_three_of_four)
    as (v' & Hadd & Hat & _); [left; simpl; lia | reflexivity |].
  exists v'. split; [exact Hadd | exact Hat].
Defined.

(** X19. [add] of a value that is not among the live elements, followed
    by [remove] of that value, returns with the live elements and the
    length as they were before the two calls. *)
Theorem add_then_remove_restores {T : Type} `{EqDecision T} (dflt : T)
    (v : vec T) (e : T) :
  wf v → e ∉ live v →
  size_ v < len_ v ∨ (2 ≤ len_ v ∧ scale_1_5 (len_ v) ≤ max_slots) →
  ∃ v', (add dflt (Outside e) ;;; remove dflt (Outside e))%vec v = Done tt v' ∧ wf v'
        ∧ live v' = live v ∧ size_ v' = size_ v.
Proof.
  intros Hwf Hnot Hroom.
  destruct (add_Done dflt v e Hwf Hroom) as (v1 & Hadd & Hwf1 & Hlive1 & Hsz1 & _).
  destruct (remove_first_live dflt v1 e (live v) [] Hwf1 Hlive1 Hnot)
    as (v' & Hrm & Hwf' & Hlive' & Hsz').
  exists v'. unfold bind. rewrite Hadd, Hrm.
  split; [done |]. split; [done |].
  split; [by rewrite Hlive', app_nil_r | lia].
Qed.

Lemma add_then_remove_restores_witness :
  wf three_of_four
  ∧ ∃ v', (add 0 (Outside 20) ;;; remove 0 (Outside 20))%vec three_of_four = Done tt v'
          ∧ live v' = [5; 10; 15].
Proof.
  split; [exact wf_three_of_four |].
  destruct (add_then_remove_restores 0 three_of_four 20 wf_three_of_four)
    as (v' & Hrun & _ & Hlive & _); [| left; simpl; lia |].
  - change (20 ∉ [5; 10; 15]). intros Hin.
    repeat (apply elem_of_cons in Hin as [Heq | Hin]; [discriminate Heq |]).
    by apply not_elem_of_nil in Hin.
  - exists v'. split; [exact Hrun | exact Hlive].
Defined.

Section remove_each_facts.
Context {T : Type} `{EqDecision T} (dflt : T).
Implicit Types (v : vec T) (es : list T).

(** Removing the live elements in their own order empties the buffer: each
    call finds its value in slot 0. *)
Lemma remove_each_live es v :
  wf v → live v = es →
  ∃ v', remove_each dflt es v = Done tt v' ∧ wf v'
        ∧ live v' = [] ∧ size_ v' = 0.
Proof.
  revert v. induction es as [| e es IH]; intros v Hwf Hlive; simpl.
  - exists v. unfold ret. split; [done |]. split; [done |]. split; [done |].
    pose proof Hwf as [Hs Hb _ _].
    pose proof (live_length v ltac:(lia)) as Hll. rewrite Hlive in Hll.
    simpl in Hll. lia.
  - destruct (remove_first_live dflt v e [] es Hwf Hlive)
      as (v1 & Hrm & Hwf1 & Hlive1 & _); [apply not_elem_of_nil |].
    destruct (IH v1 Hwf1 Hlive1) as (v' & Hrest & ? & ? & ?).
    exists v'. unfold bind. by rewrite Hrm.
Qed.

End remove_each_facts.

(** X20. On a well-formed empty buffer of capacity at least 2, a run of
    [add] calls followed by [remove] calls for the same values in the same
    order returns with an empty buffer, whatever the values and however
    often the buffer grew and shrank on the way. *)
Theorem add_all_then_remove_all_empties {T : Type} `{EqDecision T} (dflt : T)
    (v : vec T) (es : list T) :
  wf v → size_ v = 0 → 2 ≤ len_ v →
  scale_1_5 (Z.of_nat (length es)) ≤ max_slots →
  ∃ v', (add_each dflt es ;;; remove_each dflt es)%vec v = Done tt v'
        ∧ wf v' ∧ size v' = Done 0 v' ∧ live v' = [].
Proof.
  intros Hwf Hempty H2 Hfit.
  destruct (add_each_Done dflt es v Hwf H2) as (v1 & Hadd & Hwf1 & Hlive1 & _);
    [by rewrite Hempty |].
  assert (Hnil : live v = []) by (unfold live; by rewrite Hempty).
  rewrite Hnil in Hlive1. simpl in Hlive1.
  destruct (remove_each_live dflt es v1 Hwf1 Hlive1) as (v' & Hrm & ? & ? & Hsz).
  exists v'. unfold bind. rewrite Hadd, Hrm.
  split; [done |]. split; [done |]. split; [| done].
  unfold size. by rewrite Hsz.
Qed.

Lemma add_all_then_remove_all_empties_witness :
  wf empty_600 ∧ size_ empty_600 = 0
  ∧ ∃ v', (add_each 0 [3; 1; 3] ;;; remove_each 0 [3; 1; 3])%vec empty_600
          = Done tt v' ∧ live v' = [].
Proof.
  split; [exact wf_empty_600 |]. split; [reflexivity |].
  destruct (add_all_then_remove_all_empties 0 empty_600 [3; 1; 3] wf_empty_600)
    as (v' & Hrun & _ & _ & Hlive);
    [reflexivity | simpl; lia | vm_compute; discriminate |].
  exists v'. split; [exact Hrun | exact Hlive].
Defined.

(** ** Iteration and printing *)

Section iteration_facts.
Context {T : Type} `{EqDecision T}.
Implicit Types (v : vec T) (l : list T).

Lemma range_for_spec l ptr last :
  ptr ≤ last → last - ptr ≤ Z.of_nat (length l) →
  range_for l ptr last = Some (take (Z.to_nat (last - ptr)) l).
Proof.
  revert ptr. induction l as [| x l IH]; intros ptr Hle Hlen; simpl in *.
  - destruct (Z.eqb_spec ptr last); [| lia]. by rewrite take_nil.
  - destruct (Z.eqb_spec ptr last) as [-> | Hne].
    + by rewrite Z.sub_diag.
    + rewrite IH by lia. simpl.
      replace (Z.to_nat (last - ptr)) with (S (Z.to_nat (last - (ptr + 1)))) by lia.
      done.
Qed.

Lemma string_app_assoc (a b c : string) : (a +:+ b) +:+ c = a +:+ (b +:+ c).
Proof.
  induction a as [| ch a IH]; [done |].
  change (String ch ((a +:+ b) +:+ c) = String ch (a +:+ b +:+ c)).
  by f_equal.
Qed.

Lemma string_app_nil_r (a : string) : a +:+ "" = a.
Proof.
  induction a as [| ch a IH]; [done |].
  change (String ch (a +:+ "") = String ch a). by f_equal.
Qed.

Lemma stream_rest_spec (show : T → string) size l i os :
  0 ≤ i ≤ size → size ≤ INT_MAX → size - i ≤ Z.of_nat (length l) →
  stream_rest show size l i os
  = Some (os +:+ comma_tail show (take (Z.to_nat (size - i)) l)).
Proof.
  revert i os. induction l as [| x l IH]; intros i os Hi Hmax Hlen; simpl in *.
  - rewrite wrap_u_small by (pow_consts; lia).
    destruct (Z.ltb_spec i size); [lia |].
    rewrite take_nil. simpl. by rewrite string_app_nil_r.
  - rewrite wrap_u_small by (pow_consts; lia).
    destruct (Z.ltb_spec i size) as [Hlt | Hge].
    + destruct (Z.ltb_spec INT_MAX (i + 1)); [lia |].
      rewrite IH by lia.
      replace (Z.to_nat (size - i)) with (S (Z.to_nat (size - (i + 1)))) by lia.
      simpl. by rewrite !string_app_assoc.
    + replace (Z.to_nat (size - i)) with 0%nat by lia. simpl.
      by rewrite string_app_nil_r.
Qed.

(** The separator-joined form of what the loop writes after the first
    element. *)
Lemma concat_comma_tail (show : T → string) x l :
  String.concat "," (show <$> x :: l) = show x +:+ comma_tail show l.
Proof.
  revert x. induction l as [| y l IH]; intros x.
  - simpl. by rewrite string_app_nil_r.
  - change (String.concat "," (show <$> x :: y :: l))
      with (show x +:+ "," +:+ String.concat "," (show <$> y :: l)).
    by rewrite IH.
Qed.

End iteration_facts.

(** X21. A range-based [for] over a well-formed buffer, from [begin()] to
    [end()], ends and visits exactly the live elements, in index order. *)
Theorem range_for_visits_live {T : Type} (v : vec T) :
  wf v → range_for (arr_ v) (begin_ v) (end_ v) = Some (live v).
Proof.
  intros [Hs Hb Hm Hl]. unfold begin_, end_.
  rewrite range_for_spec by lia. by rewrite Z.sub_0_r.
Qed.

Lemma range_for_visits_live_witness :
  wf three_of_four
  ∧ range_for (arr_ three_of_four) (begin_ three_of_four) (end_ three_of_four)
    = Some [5; 10; 15].
Proof.
  split; [exact wf_three_of_four |].
  exact (range_for_visits_live three_of_four wf_three_of_four).
Defined.

(** X22. [operator<<] on a well-formed buffer of at most [INT_MAX]
    elements writes an opening bracket, the live elements in index order
    separated by single commas, and a closing bracket, after whatever the
    stream held; an empty buffer is written as [[]]. *)
Theorem stream_out_brackets_and_commas {T : Type}
    (show : T → string) (os : string) (v : vec T) :
  wf v → size_ v ≤ INT_MAX →
  stream_out show os v
  = Some (os +:+ "[" +:+ String.concat "," (show <$> live v) +:+ "]").
Proof.
  intros Hwf Hmax. pose proof Hwf as [Hs Hb Hm Hl]. unfold stream_out.
  destruct (Z.eqb_spec (size_ v) 0) as [H0 | Hpos].
  - unfold live. rewrite H0. reflexivity.
  - destruct (read_in_block (arr_ v) 0) as (x0 & Hr & Hx); [lia |].
    rewrite Hr.
    rewrite stream_rest_spec by (rewrite ?length_drop; lia).
    assert (Hlive : live v = x0 :: take (Z.to_nat (size_ v - 1)) (drop 1 (arr_ v))).
    { unfold live. destruct (arr_ v) as [| y a]; [done |].
      simpl in Hx. injection Hx as ->.
      replace (Z.to_nat (size_ v)) with (S (Z.to_nat (size_ v - 1))) by lia.
      done. }
    rewrite Hlive, concat_comma_tail. by rewrite !string_app_assoc.
Qed.

Lemma stream_out_brackets_and_commas_witness :
  wf three_of_four ∧ size_ three_of_four ≤ INT_MAX
  ∧ stream_out show_small "" three_of_four = Some "[5,10,15]".
Proof.
  split; [exact wf_three_of_four |]. split; [vm_compute; discriminate |].
  rewrite (stream_out_brackets_and_commas show_small "" three_of_four
             wf_three_of_four) by (vm_compute; discriminate).
  reflexivity.
Defined.

(** ** Move assignment *)

(** X23. Move assignment between distinct objects hands the source's
    block, length, capacity and threshold to the target and leaves the
    source a well-formed buffer without block, of length and capacity 0, on
    which every [at] throws; no other object changes.  Assigning an object
    to itself changes nothing. *)
Theorem move_assign_transfers {T : Type} `{EqDecision T}
    (σ : gmap nat (vec T)) (this o : nat) (A B : vec T) :
  σ !! this = Some B → σ !! o = Some A →
  (this = o → move_assign this o σ = Done tt σ)
  ∧ (this ≠ o →
     ∃ σ' E, move_assign this o σ = Done tt σ'
             ∧ σ' !! this = Some A
             ∧ σ' !! o = Some E ∧ wf E ∧ size_ E = 0 ∧ len_ E = 0 ∧ arr_ E = []
             ∧ (∀ i, - 2 ^ 63 ≤ i < 2 ^ 63 → at_ i E = OutOfRange E)
             ∧ (∀ k, k ≠ this → k ≠ o → σ' !! k = σ !! k)).
Proof.
  intros Hthis Ho. split.
  - intros Heq. unfold move_assign. by rewrite decide_True.
  - intros Hne. unfold move_assign. rewrite decide_False by done.
    rewrite Hthis, Ho. eexists _, _. split; [reflexivity |].
    split; [by rewrite lookup_insert_ne, lookup_insert_eq |].
    split; [by rewrite lookup_insert_eq |].
    split; [split; simpl; [lia | done | pow_consts; lia | dlia] |].
    split; [done |]. split; [done |]. split; [done |].
    split.
    + intros i Hi. unfold at_. simpl.
      destruct (Z.ltb_spec i 0).
      * rewrite wrap_s_small by lia.
        destruct (Z.geb_spec (0 + i) 0); [lia | done].
      * rewrite wrap_u_small by (pow_consts; lia).
        destruct (Z.ltb_spec i 0); [lia | done].
    + intros k Hk1 Hk2. by rewrite !lookup_insert_ne.
Qed.

Lemma move_assign_transfers_witness :
  ∃ σ', move_assign 0 1 two_objects = Done tt σ'
        ∧ σ' !! 0%nat = Some empty_600.
Proof.
  destruct (move_assign_transfers two_objects 0 1 empty_600
              (Vec (replicate 32 0) 0 32 0)) as [_ Hmove];
    [reflexivity | reflexivity |].
  destruct Hmove as (σ' & E & Hrun & Hthis & _); [lia |].
  exists σ'. split; [exact Hrun | exact Hthis].
Defined.

(** ** Elements passed by reference to the buffer's own slots *)

(** X24. [add] of a reference to a slot of the buffer itself, as in
    [v.add(v[i])], on a well-formed full buffer whose larger block can be
    allocated: [grow] has released the block the reference points into
    before the element is read, so the call reads released memory, for
    every index [i]. *)
Theorem add_own_slot_when_full {T : Type} `{EqDecision T} (dflt : T)
    (v : vec T) (i : Z) :
  wf v → size_ v = len_ v → scale_1_5 (len_ v) ≤ max_slots →
  add dflt (Slot i) v = Undefined.
Proof.
  intros [Hs Hb Hm Hl] Hfull Hfit.
  destruct (grow_Done dflt v) as (a & Hgrow & _);
    [lia | lia | unfold scale_1_5; dlia | done |].
  unfold add. cbv zeta. unfold bind.
  destruct (Z.eqb_spec (size_ v) (len_ v)); [| lia].
  by rewrite Hgrow.
Qed.

Lemma add_own_slot_when_full_witness :
  wf full_2 ∧ subscript 0 full_2 = Done 5 full_2
  ∧ add 0 (Slot 0) full_2 = Undefined
  ∧ ∃ v', add 0 (Outside 5) full_2 = Done tt v' ∧ live v' = [5; 5; 5].
Proof.
  split; [exact wf_full_2 |]. split; [reflexivity |]. split.
  - apply (add_own_slot_when_full 0 full_2 0 wf_full_2); [reflexivity |].
    vm_compute. discriminate.
  - eexists. split; vm_compute; reflexivity.
Defined.

(** X25. [remove] of a reference to a slot of the buffer itself, as in
    [v.remove(v[i])], on a well-formed buffer whose length is below the
    shrink threshold: [shrink] has released the block the reference points
    into before the loop compares against it, so the call reads released
    memory, for every index [i]. *)
Theorem remove_own_slot_when_shrinking {T : Type} `{EqDecision T} (dflt : T)
    (v : vec T) (i : Z) :
  wf v → size_ v < minlen_ v →
  remove dflt (Slot i) v = Undefined.
Proof.
  intros [Hs Hb Hm Hl] Hlt.
  destruct (shrink_Done dflt v) as (a & Hsh & _); [lia | lia | lia | dlia |].
  unfold remove. cbv zeta. unfold bind.
  destruct (Z.ltb_spec (size_ v) (minlen_ v)); [| lia].
  rewrite Hsh. simpl.
  destruct (Z.ltb_spec 0 (len_ v / 2)); [done | lia].
Qed.

Lemma remove_own_slot_when_shrinking_witness :
  wf three_of_600 ∧ subscript 1 three_of_600 = Done 10 three_of_600
  ∧ remove 0 (Slot 1) three_of_600 = Undefined
  ∧ ∃ v', remove 0 (Outside 10) three_of_600 = Done tt v' ∧ live v' = [5; 15].
Proof.
  split; [exact wf_three_of_600 |]. split; [reflexivity |]. split.
  - apply (remove_own_slot_when_shrinking 0 three_of_600 1 wf_three_of_600).
    simpl. lia.
  - eexists. split; vm_compute; reflexivity.
Defined.
